(** * draft-js-mod: paste processor, drag-over handler and editor block

    A shallow embedding of three source files of the repository:

    - [DraftPasteProcessor]      (processHTML, processText)
    - [editOnDragOver]           (the drag-over handler of the editor)
    - [DraftEditorBlock.react]   (shouldComponentUpdate, componentDidMount,
                                  _renderChildren)

    JavaScript objects that the code shares by reference (block records, the
    [textBlocks] array, the character metadata) live in an explicit store, so
    that "a new record" and "the same record, modified" are different
    things in the model, as they are in the program. *)

From Stdlib Require Import ZArith Lia.
From stdpp Require Import base option list strings.

Set Default Proof Using "Type".

(* ===================================================================== *)
(** ** DraftPasteProcessor *)
(* ===================================================================== *)

Module DraftPasteProcessor.

Section Paste.

(** What [DraftPasteProcessor] requires from other modules.  None of them is
    defined in the file itself, so each one is a parameter of the model.

    - [CharacterMetadata]: the class of the [character] argument;
    - [generateRandomKey]: reads and updates a state of its own (the random
      source and the table of keys already handed out), which is [KeyGen];
    - [sanitizeDraftText]: a function from strings to strings;
    - [experimentalTreeDataSupport]: the feature flag
      [DraftFeatureFlags.draft_tree_data_support]. *)
Context {CharacterMetadata : Type}.
Context {KeyGen : Type}.
Variable generateRandomKey : KeyGen -> string * KeyGen.
Variable sanitizeDraftText : string -> string.
Variable experimentalTreeDataSupport : bool.

(** The object literal [blockNodeConfig].  [prevSibling] is only present
    after the spread in the tree branch. *)
Record BlockNodeConfig := mkConfig {
  cfg_key : string;
  cfg_type : string;
  cfg_text : string;
  cfg_characterList : list CharacterMetadata;
  cfg_prevSibling : option string;
}.

(** A block record ([ContentBlock] or [ContentBlockNode], according to the
    flag), restricted to the fields [processText] reads or writes.  The
    sibling fields of a [ContentBlockNode] default to [null]. *)
Record BlockNodeRecord := mkBlock {
  key : string;
  type : string;
  text : string;
  characterList : list CharacterMetadata;
  prevSibling : option string;
  nextSibling : option string;
}.

(** [new ContentBlockRecord(blockNodeConfig)], as a value. *)
Definition ContentBlockRecord (c : BlockNodeConfig) : BlockNodeRecord :=
  {| key := cfg_key c;
     type := cfg_type c;
     text := cfg_text c;
     characterList := cfg_characterList c;
     prevSibling := cfg_prevSibling c;
     nextSibling := None |}.

(** [record.merge({nextSibling: k})], as a value. *)
Definition with_nextSibling (k : string) (r : BlockNodeRecord) : BlockNodeRecord :=
  {| key := key r;
     type := type r;
     text := text r;
     characterList := characterList r;
     prevSibling := prevSibling r;
     nextSibling := Some k |}.

Definition getKey (r : BlockNodeRecord) : string := key r.

(** *** The store

    Record objects are allocated in [st_records]; the address of a record is
    its position, and allocation appends.  The array passed as [textBlocks]
    and the object passed as [character] are cells of the store as well:
    the code reads them through the store every time it uses them. *)
Definition addr := nat.

Record Store := mkStore {
  st_textBlocks : list string;
  st_character : CharacterMetadata;
  st_records : list BlockNodeRecord;
  st_keygen : KeyGen;
}.

(** Computations that read and write the store and may throw. *)
Definition M (A : Type) : Type := Store -> option (A * Store).

Definition ret {A} (a : A) : M A := fun s => Some (a, s).

Definition bind {A B} (m : M A) (f : A -> M B) : M B :=
  fun s => match m s with
           | Some (a, s') => f a s'
           | None => None
           end.

Definition throw {A} : M A := fun _ => None.

Notation "x <- m ;; k" := (bind m (fun x => k))
  (at level 100, m at next level, right associativity).

(** [textBlocks[k]]: [None] when the index is not in the array. *)
Definition readLine (k : nat) : M (option string) :=
  fun s => Some (st_textBlocks s !! k, s).

Definition readCharacter : M CharacterMetadata :=
  fun s => Some (st_character s, s).

(** A call of [generateRandomKey()]. *)
Definition freshKey : M string :=
  fun s =>
    let (k, g) := generateRandomKey (st_keygen s) in
    Some (k, {| st_textBlocks := st_textBlocks s;
                st_character := st_character s;
                st_records := st_records s;
                st_keygen := g |}).

(** Allocation of a record object. *)
Definition alloc (r : BlockNodeRecord) : M addr :=
  fun s =>
    Some (length (st_records s),
          {| st_textBlocks := st_textBlocks s;
             st_character := st_character s;
             st_records := st_records s ++ [r];
             st_keygen := st_keygen s |}).

(** Reading a record through its address; a property access on
    [undefined] throws. *)
Definition deref (a : option addr) : M BlockNodeRecord :=
  fun s => match a with
           | Some a' =>
               match st_records s !! a' with
               | Some r => Some (r, s)
               | None => None
               end
           | None => None
           end.

(** [acc[i].merge({nextSibling: k})].  The records are Immutable.js
    records: [merge] never writes to the receiver; it returns the receiver
    itself when the merge changes nothing and a new record otherwise. *)
Definition merge_nextSibling (a : option addr) (k : string) : M addr :=
  r <- deref a ;;
  match a with
  | Some a' =>
      if decide (nextSibling r = Some k) then ret a'
      else alloc (with_nextSibling k r)
  | None => throw
  end.

(** *** processText *)

(** The callback given to [reduce]. *)
Definition callback (type : string)
    (acc : list addr) (textLine : string) (index : nat) : M (list addr) :=
  let textLine := sanitizeDraftText textLine in
  key <- freshKey ;;
  character <- readCharacter ;;
  let blockNodeConfig :=
    {| cfg_key := key;
       cfg_type := type;
       cfg_text := textLine;
       cfg_characterList := replicate (String.length textLine) character;
       cfg_prevSibling := None |} in
  p <- (if experimentalTreeDataSupport && negb (index =? 0)
        then
          let prevSiblingIndex := index - 1 in
          previousBlock <- merge_nextSibling (acc !! prevSiblingIndex) key ;;
          let acc := <[prevSiblingIndex := previousBlock]> acc in
          pb <- deref (Some previousBlock) ;;
          ret (acc,
               {| cfg_key := cfg_key blockNodeConfig;
                  cfg_type := cfg_type blockNodeConfig;
                  cfg_text := cfg_text blockNodeConfig;
                  cfg_characterList := cfg_characterList blockNodeConfig;
                  cfg_prevSibling := Some (getKey pb) |})
        else ret (acc, blockNodeConfig)) ;;
  b <- alloc (ContentBlockRecord (snd p)) ;;
  ret (fst p ++ [b]).

(** [Array.prototype.reduce] with an initial value: the length is read
    once, the indices [k, k+1, ...] are visited in order, an index that is
    not in the array is skipped, and the element is read when its turn
    comes.  [n] counts the indices still to visit. *)
Fixpoint reduce (f : list addr -> string -> nat -> M (list addr))
    (n k : nat) (acc : list addr) : M (list addr) :=
  match n with
  | 0 => ret acc
  | S n' =>
      o <- readLine k ;;
      acc' <- match o with
              | Some textLine => f acc textLine k
              | None => ret acc
              end ;;
      reduce f n' (S k) acc'
  end.

(** The body of [processText], run in a store that holds its first two
    arguments. *)
Definition processText_body (type : string) : M (list addr) :=
  fun s => reduce (callback type) (length (st_textBlocks s)) 0 [] s.

(** [processText(textBlocks, character, type)], called when the record
    heap is [h] and the key generator is in state [g].  The result is the
    returned array (of record addresses) and the store after the call. *)
Definition processText (textBlocks : list string)
    (character : CharacterMetadata) (type : string)
    (h : list BlockNodeRecord) (g : KeyGen) : option (list addr * Store) :=
  processText_body type
    {| st_textBlocks := textBlocks;
       st_character := character;
       st_records := h;
       st_keygen := g |}.

(** The records an array of addresses points to. *)
Definition getBlocks (s : Store) (acc : list addr) : option (list BlockNodeRecord) :=
  mapM (fun a => st_records s !! a) acc.

(** *** The returned array, by value

    [blocks_step] is what one call of the callback does to the records the
    accumulator points to, and [blocks_run] iterates it over the lines, drawing
    one key per line.  They are the value-level reading of [callback] and
    [reduce]; [processText_blocks] below relates the two. *)
Definition blocks_step (type : string) (character : CharacterMetadata)
    (bs : list BlockNodeRecord) (textLine : string) (k : string)
    : list BlockNodeRecord :=
  let textLine := sanitizeDraftText textLine in
  let index := length bs in
  let linked := experimentalTreeDataSupport && negb (index =? 0) in
  (if linked then alter (with_nextSibling k) (index - 1) bs else bs) ++
  [ {| key := k;
       type := type;
       text := textLine;
       characterList := replicate (String.length textLine) character;
       prevSibling := if linked then key <$> bs !! (index - 1) else None;
       nextSibling := None |} ].

Fixpoint blocks_run (type : string) (character : CharacterMetadata)
    (lines : list string) (g : KeyGen) (bs : list BlockNodeRecord)
    : list BlockNodeRecord * KeyGen :=
  match lines with
  | [] => (bs, g)
  | textLine :: lines' =>
      let (k, g') := generateRandomKey g in
      blocks_run type character lines' g' (blocks_step type character bs textLine k)
  end.

(** The keys that [n] successive calls of [generateRandomKey] return. *)
Fixpoint draw (n : nat) (g : KeyGen) : list string :=
  match n with
  | 0 => []
  | S n' => let (k, g') := generateRandomKey g in k :: draw n' g'
  end.

(** [processText], observed as the array of records it returns. *)
Definition processText_result (textBlocks : list string)
    (character : CharacterMetadata) (type : string)
    (h : list BlockNodeRecord) (g : KeyGen) : option (list BlockNodeRecord) :=
  match processText textBlocks character type h g with
  | Some (acc, s) => getBlocks s acc
  | None => None
  end.

(** What a computation leaves alone: the two argument cells, and every
    record that is in the store when it starts. *)
Definition frame (s s' : Store) : Prop :=
  st_textBlocks s' = st_textBlocks s /\
  st_character s' = st_character s /\
  st_records s `prefix_of` st_records s'.

(** The doubly-linked sibling chain over an array of records: neighbours
    name each other by key, and the two ends have no sibling outwards. *)
Definition sibling_chain (bs : list BlockNodeRecord) : Prop :=
  (forall i b b', bs !! i = Some b -> bs !! S i = Some b' ->
     prevSibling b' = Some (key b) /\ nextSibling b = Some (key b')) /\
  (forall b, head bs = Some b -> prevSibling b = None) /\
  (forall b, last bs = Some b -> nextSibling b = None).

(** Two calls of [processText] in a row with the same arguments, the
    second one starting in the store the first one leaves; the result is the
    pair of the two returned arrays, by value. *)
Definition processText_twice (textBlocks : list string)
    (character : CharacterMetadata) (type : string)
    (h : list BlockNodeRecord) (g : KeyGen)
    : option (list BlockNodeRecord * list BlockNodeRecord) :=
  match processText textBlocks character type h g with
  | Some (acc1, s1) =>
      match processText textBlocks character type (st_records s1) (st_keygen s1) with
      | Some (acc2, s2) =>
          match getBlocks s1 acc1, getBlocks s2 acc2 with
          | Some bs1, Some bs2 => Some (bs1, bs2)
          | _, _ => None
          end
      | None => None
      end
  | None => None
  end.

(** In tree mode every record of the accumulator but the last is a relinked
    copy, at an address of its own, of a record that is still in the store
    with no next sibling; the last one has no next sibling. *)
Definition relinked (acc : list addr) (s : Store) : Prop :=
  (forall a, last acc = Some a ->
     exists r, st_records s !! a = Some r /\ nextSibling r = None) /\
  (forall i a, acc !! i = Some a -> S i < length acc ->
     exists a0 r0 k, a0 <> a /\
       st_records s !! a0 = Some r0 /\ nextSibling r0 = None /\
       st_records s !! a = Some (with_nextSibling k r0)).

(** The state of the key generator after [n] calls of
    [generateRandomKey]. *)
Fixpoint after_draws (n : nat) (g : KeyGen) : KeyGen :=
  match n with
  | 0 => g
  | S n' => after_draws n' (snd (generateRandomKey g))
  end.

(** The accumulator after [k] lines of a call that started with the
    records [h], when the store holds [n] records: [k] addresses, all of
    records allocated during the call, in increasing order; one record has
    been allocated per line and, with tree data support, one more per line
    after the first. *)
Definition shaped (h : list BlockNodeRecord) (k : nat) (acc : list addr) (n : nat) : Prop :=
  length acc = k /\
  n = length h + k + (if experimentalTreeDataSupport then pred k else 0) /\
  (forall i a, acc !! i = Some a -> length h <= a < n) /\
  (forall i j a b, i < j -> acc !! i = Some a -> acc !! j = Some b -> a < b).

End Paste.

End DraftPasteProcessor.

(* ===================================================================== *)
(** ** DraftPasteProcessor.processHTML *)
(* ===================================================================== *)

Module ProcessHTML.

Section HTML.

(** [processHTML] only forwards to [convertFromHTMLToContentBlocks], which
    is another module, as are the argument types.  Blocks and entity maps
    are opaque here. *)
Context {BlockNodeRecord EntityMap DraftBlockRenderMap PostProcessInlineTag DOMBuilder : Type}.

(** The declared return type
    [?{contentBlocks: ?Array<BlockNodeRecord>, entityMap: EntityMap}]. *)
Record HTMLResult := mkHTMLResult {
  contentBlocks : option (list BlockNodeRecord);
  entityMap : EntityMap;
}.

Variable getSafeBodyFromHTML : DOMBuilder.
Variable convertFromHTMLtoContentBlocks :
  string -> DOMBuilder -> option DraftBlockRenderMap ->
  option PostProcessInlineTag -> option HTMLResult.

(** The two optional parameters are passed on as they come
    ([None] is [undefined]). *)
Definition processHTML (html : string)
    (blockRenderMap : option DraftBlockRenderMap)
    (_postProcessInlineTag : option PostProcessInlineTag) : option HTMLResult :=
  convertFromHTMLtoContentBlocks html getSafeBodyFromHTML
    blockRenderMap _postProcessInlineTag.

End HTML.

End ProcessHTML.

(* ===================================================================== *)
(** ** editOnDragOver *)
(* ===================================================================== *)

Module EditOnDragOver.

Section Handler.

(** The editor component is another module; the handler only calls its
    [setMode] method.  [EventData] is whatever else an event carries. *)
Context {DraftEditor EventData : Type}.
Variable setMode : string -> DraftEditor -> DraftEditor.

Record SyntheticDragEvent := mkEvent {
  defaultPrevented : bool;
  eventData : EventData;
}.

(** [e.preventDefault()] of a synthetic event. *)
Definition preventDefault (e : SyntheticDragEvent) : SyntheticDragEvent :=
  {| defaultPrevented := true; eventData := eventData e |}.

(** The handler returns nothing; its effect is the editor and the event
    after the call.  The assignment [editor._internalDrag = false] is
    commented out in the source and is not part of the body. *)
Definition editOnDragOver (editor : DraftEditor) (e : SyntheticDragEvent)
    : DraftEditor * SyntheticDragEvent :=
  let editor := setMode "drag" editor in
  let e := preventDefault e in
  (editor, e).

End Handler.

End EditOnDragOver.

(* ===================================================================== *)
(** ** DraftEditorBlock *)
(* ===================================================================== *)

Module DraftEditorBlock.

Definition SCROLL_BUFFER : Z := 10.

(** [String.prototype.slice(start, end)] with integer arguments: a negative
    index counts from the end, both are clamped to the string, and the result
    is empty when the end is not after the start. *)
Definition slice (s : string) (start end_ : Z) : string :=
  let len := Z.of_nat (String.length s) in
  let from := if (start <? 0)%Z then Z.max (len + start) 0 else Z.min start len in
  let to := if (end_ <? 0)%Z then Z.max (len + end_) 0 else Z.min end_ len in
  String.substring (Z.to_nat from) (Z.to_nat (to - from)) s.

(** A leaf and a leaf set of the decorator tree, as the component reads
    them ([leaf.get('start')], [leafSet.get('leaves')], ...). *)
Record Leaf := mkLeaf {
  leaf_start : Z;
  leaf_end : Z;
}.

Record LeafSet := mkLeafSet {
  start : Z;
  end_ : Z;
  decoratorKey : option string;
  leaves : list Leaf;
}.

(** [{x, y, width, height}], as [getElementPosition] returns it, and
    [{x, y}], as [getScrollPosition] does.  Pixel coordinates are integers. *)
Record ElementPosition := mkPosition {
  x : Z;
  y : Z;
  width : Z;
  height : Z;
}.

Record ScrollPosition := mkScroll {
  scroll_x : Z;
  scroll_y : Z;
}.

(** The modules the component calls into.  Objects compared with [!==] are
    references, and equality on [Block] and [Tree] is equality of reference.
    The DOM is read, never written, until the final scroll call, so the
    measuring functions are functions of the node. *)
Class Collaborators := {
  Block : Type;
  Tree : Type;
  Block_eq_dec :: EqDecision Block;
  Tree_eq_dec :: EqDecision Tree;
  SelectionState : Type;
  ContentState : Type;
  DraftEditor : Type;
  DraftInlineStyle : Type;
  CustomStyleMap : Type;
  CustomStyleFn : Type;
  Component : Type;
  DecoratorProps : Type;
  Node : Type;
  (* BlockNodeRecord *)
  getKey : Block -> string;
  getText : Block -> string;
  getInlineStyleAt : Block -> Z -> DraftInlineStyle;
  getEntityAt : Block -> Z -> option string;
  (* SelectionState *)
  getAnchorKey : SelectionState -> string;
  getFocusKey : SelectionState -> string;
  getEndKey : SelectionState -> string;
  getHasFocus : SelectionState -> bool;
  (* the Immutable list of leaf sets behind a tree reference *)
  leafSets : Tree -> list LeafSet;
  (* DraftOffsetKey, UnicodeBidi, UnicodeBidiDirection *)
  encode : string -> nat -> nat -> string;
  getDirection : string -> string;
  getHTMLDirIfDifferent : string -> string -> option string;
  (* ReactDOM, Style, getScrollPosition, getElementPosition,
     getViewportDimensions, window.document.body *)
  findDOMNode_editor : DraftEditor -> Node;
  getScrollParent : Node -> option Node;   (* [None] is [window] *)
  getScrollPosition : option Node -> ScrollPosition;
  getElementPosition : Node -> ElementPosition;
  getViewportDimensions_height : Z;
  document_body : Node;
}.

Section Component.

Context `{Collaborators}.

(** [DraftDecoratorType], as far as the component uses it. *)
Record DraftDecoratorType := mkDecorator {
  getComponentForKey : string -> option Component;
  getPropsForKey : string -> option DecoratorProps;
}.

Record Props := mkProps {
  block : Block;
  contentState : ContentState;
  customStyleFn : CustomStyleFn;
  customStyleMap : CustomStyleMap;
  decorator : option DraftDecoratorType;
  direction : string;
  forceSelection : bool;
  offsetKey : string;
  selection : SelectionState;
  tree : Tree;
  editor : DraftEditor;
}.

Definition isBlockOnSelectionEdge (selection : SelectionState) (key : string) : bool :=
  bool_decide (getAnchorKey selection = key) || bool_decide (getFocusKey selection = key).

Definition shouldComponentUpdate (this_props nextProps : Props) : bool :=
  negb (bool_decide (block this_props = block nextProps)) ||
  negb (bool_decide (tree this_props = tree nextProps)) ||
  negb (bool_decide (direction this_props = direction nextProps)) ||
  (isBlockOnSelectionEdge (selection nextProps) (getKey (block nextProps)) &&
   forceSelection nextProps).

(** *** componentDidMount *)

(** The one DOM write the method can end with. *)
Inductive ScrollCall :=
| window_scrollTo (x y : Z)
| Scroll_setTop (scrollParent : Node) (top : Z).

(** The local constants of the method that its decision depends on. *)
Record Measures := mkMeasures {
  scrollParent : Node;
  isScrParentWindow : bool;
  scrollPosition : ScrollPosition;
  blockHeight : Z;
  blockTop : Z;
  blockBottom : Z;
  visTop : Z;
  visHeight : Z;
  visBottom : Z;
}.

(** The measuring part of the method, from [findDOMNode] down to
    [visBottom].  [this_node] is [ReactDOM.findDOMNode(this)]. *)
Definition measure (this_props : Props) (this_node : Node) : Measures :=
  let editor := editor this_props in
  let blockNode := this_node in
  let editorNode := findDOMNode_editor editor in
  let scrollParent := getScrollParent blockNode in
  let scrollPosition := getScrollPosition scrollParent in
  let blockPosition := getElementPosition blockNode in
  let editorPosition := getElementPosition editorNode in
  let isScrParentWindow := bool_decide (scrollParent = None) in
  let viewportHeight := getViewportDimensions_height in
  let scrollParent := match scrollParent with
                      | None => document_body
                      | Some n => n
                      end in
  let scrollParentPosition :=
    if negb isScrParentWindow then getElementPosition scrollParent
    else {| x := 0; y := 0; width := 0; height := viewportHeight |} in
  let blockHeight := height blockPosition in
  let blockTop := (y blockPosition - y editorPosition)%Z in
  let blockBottom := (blockTop + blockHeight)%Z in
  let visTop := (y scrollParentPosition - y editorPosition)%Z in
  let visHeight := height scrollParentPosition in
  let visBottom := (visTop + visHeight)%Z in
  {| scrollParent := scrollParent;
     isScrParentWindow := isScrParentWindow;
     scrollPosition := scrollPosition;
     blockHeight := blockHeight;
     blockTop := blockTop;
     blockBottom := blockBottom;
     visTop := visTop;
     visHeight := visHeight;
     visBottom := visBottom |}.

(** The value of [correctScrollTop] when the [if] has run; [None] is
    [undefined]. *)
Definition correctScrollTop (m : Measures) : option Z :=
  let scrollDeltaTop := (visTop m - blockTop m)%Z in
  let scrollDeltaBottom := (visBottom m - blockBottom m)%Z in
  let isBigBlock := (blockHeight m >=? visHeight m)%Z in
  if (visTop m >? blockTop m)%Z || (isBigBlock && (blockTop m >? visBottom m)%Z)
  then Some (scroll_y (scrollPosition m) - SCROLL_BUFFER - scrollDeltaTop)%Z
  else if negb isBigBlock && (blockBottom m >? visBottom m)%Z
  then Some (scroll_y (scrollPosition m) + SCROLL_BUFFER - scrollDeltaBottom)%Z
  else None.

(** The method: the result is the scroll call made, if any. *)
Definition componentDidMount (this_props : Props) (this_node : Node) : option ScrollCall :=
  let selection := selection this_props in
  let endKey := getEndKey selection in
  if negb (getHasFocus selection) || negb (bool_decide (endKey = getKey (block this_props)))
  then None
  else
    let m := measure this_props this_node in
    match correctScrollTop m with
    | Some top =>
        if isScrParentWindow m
        then Some (window_scrollTo (scroll_x (scrollPosition m)) top)
        else Some (Scroll_setTop (scrollParent m) top)
    | None => None
    end.

(** The new scroll top a scroll call sets. *)
Definition call_top (c : ScrollCall) : Z :=
  match c with
  | window_scrollTo _ top => top
  | Scroll_setTop _ top => top
  end.

(** *** _renderChildren *)

(** A [<DraftEditorLeaf .../>] element: its props. *)
Record LeafElement := mkLeafElement {
  le_key : string;
  le_offsetKey : string;
  le_block : Block;
  le_start : Z;
  le_selection : option SelectionState;
  le_forceSelection : bool;
  le_text : string;
  le_styleSet : DraftInlineStyle;
  le_customStyleMap : CustomStyleMap;
  le_customStyleFn : CustomStyleFn;
  le_isLast : bool;
}.

(** A [<DecoratorComponent ...>{leaves}</DecoratorComponent>] element. *)
Record DecoratorElement := mkDecoratorElement {
  de_component : Component;
  de_decoratorProps : option DecoratorProps;
  de_contentState : ContentState;
  de_decoratedText : string;
  de_dir : option string;
  de_key : string;
  de_entityKey : option string;
  de_offsetKey : string;
  de_children : list LeafElement;
}.

(** What the outer [map] returns for one leaf set. *)
Inductive Child :=
| BareLeaves (ls : list LeafElement)
| Decorated (d : DecoratorElement).

(** The inner [map] callback. *)
Definition renderLeaf (this_props : Props) (lastLeafSet lastLeaf : Z)
    (ii jj : nat) (leaf : Leaf) : LeafElement :=
  let block := block this_props in
  let blockKey := getKey block in
  let text := getText block in
  let hasSelection := isBlockOnSelectionEdge (selection this_props) blockKey in
  let offsetKey := encode blockKey ii jj in
  let start := leaf_start leaf in
  let end_ := leaf_end leaf in
  {| le_key := offsetKey;
     le_offsetKey := offsetKey;
     le_block := block;
     le_start := start;
     le_selection := if hasSelection then Some (selection this_props) else None;
     le_forceSelection := forceSelection this_props;
     le_text := slice text start end_;
     le_styleSet := getInlineStyleAt block start;
     le_customStyleMap := customStyleMap this_props;
     le_customStyleFn := customStyleFn this_props;
     le_isLast := (Z.of_nat ii =? lastLeafSet)%Z && (Z.of_nat jj =? lastLeaf)%Z |}.

(** The outer [map] callback.  [None] is the [TypeError] of
    [leavesForLeafSet.first().get] on an empty list of leaves. *)
Definition renderLeafSet (this_props : Props) (lastLeafSet : Z)
    (ii : nat) (leafSet : LeafSet) : option Child :=
  let block := block this_props in
  let blockKey := getKey block in
  let text := getText block in
  let leavesForLeafSet := leaves leafSet in
  let lastLeaf := (Z.of_nat (length leavesForLeafSet) - 1)%Z in
  let leaves := imap (renderLeaf this_props lastLeafSet lastLeaf ii) leavesForLeafSet in
  match decoratorKey leafSet with
  | None => Some (BareLeaves leaves)
  | Some decoratorKey =>
      match decorator this_props with
      | None => Some (BareLeaves leaves)
      | Some decorator =>
          match getComponentForKey decorator decoratorKey with
          | None => Some (BareLeaves leaves)
          | Some DecoratorComponent =>
              let decoratorProps := getPropsForKey decorator decoratorKey in
              let decoratorOffsetKey := encode blockKey ii 0 in
              match head leavesForLeafSet, last leavesForLeafSet with
              | Some first_leaf, Some last_leaf =>
                  let decoratedText :=
                    slice text (leaf_start first_leaf) (leaf_end last_leaf) in
                  let dir := getHTMLDirIfDifferent (getDirection decoratedText)
                               (direction this_props) in
                  Some (Decorated
                    {| de_component := DecoratorComponent;
                       de_decoratorProps := decoratorProps;
                       de_contentState := contentState this_props;
                       de_decoratedText := decoratedText;
                       de_dir := dir;
                       de_key := decoratorOffsetKey;
                       de_entityKey := getEntityAt block (start leafSet);
                       de_offsetKey := decoratorOffsetKey;
                       de_children := leaves |})
              | _, _ => None
              end
          end
      end
  end.

Definition _renderChildren (this_props : Props) : option (list Child) :=
  let lastLeafSet := (Z.of_nat (length (leafSets (tree this_props))) - 1)%Z in
  mapM (fun p => renderLeafSet this_props lastLeafSet (fst p) (snd p))
       (imap pair (leafSets (tree this_props))).

(** The leaf elements of a rendered child. *)
Definition child_leaves (c : Child) : list LeafElement :=
  match c with
  | BareLeaves ls => ls
  | Decorated d => de_children d
  end.

(** *** render *)

(** [cx] turns the object of class flags into the class string; it is
    another module. *)
Context {ClassName : Type}.
Variable cx : list (string * bool) -> ClassName.

(** The [<div>] the block renders to. *)
Record BlockElement := mkBlockElement {
  div_offsetKey : string;
  div_className : ClassName;
  div_children : list Child;
}.

(** The object literal given to [cx]. *)
Definition classFlags (direction : string) : list (string * bool) :=
  [ ("public/DraftStyleDefault/block", true);
    ("public/DraftStyleDefault/ltr", bool_decide (direction = "LTR"));
    ("public/DraftStyleDefault/rtl", bool_decide (direction = "RTL")) ].

(** [None] when [_renderChildren] throws. *)
Definition render (this_props : Props) : option BlockElement :=
  let direction := direction this_props in
  let offsetKey := offsetKey this_props in
  let className := cx (classFlags direction) in
  match _renderChildren this_props with
  | Some children =>
      Some {| div_offsetKey := offsetKey;
              div_className := className;
              div_children := children |}
  | None => None
  end.

(** *** Shapes of a list of leaves *)

(** Leaves that tile a range of the text: each one starts at or after
    zero and does not end before it starts, and each one starts where the one
    before it ends. *)
Fixpoint tiled (ls : list Leaf) : Prop :=
  match ls with
  | [] => True
  | l :: rest =>
      (0 <= leaf_start l <= leaf_end l)%Z /\
      match rest with
      | [] => True
      | l' :: _ => leaf_end l = leaf_start l'
      end /\
      tiled rest
  end.

(** The concatenation of a list of strings. *)
Definition concat_texts (ts : list string) : string :=
  foldr String.append EmptyString ts.

End Component.

End DraftEditorBlock.

(* ===================================================================== *)
(** ** Instances for examples *)
(* ===================================================================== *)

Module Demo.

(** A key supply that hands out ["a"], ["b"], ["c"], ...: its state is the
    number of keys handed out so far. *)
Definition counterKey (n : nat) : string * nat :=
  (String (Ascii.ascii_of_nat (97 + n)) EmptyString, S n).

(** A sanitizer that drops carriage returns. *)
Fixpoint dropCR (s : string) : string :=
  match s with
  | EmptyString => EmptyString
  | String a s' =>
      if Ascii.eqb a (Ascii.ascii_of_nat 13) then dropCR s'
      else String a (dropCR s')
  end.

(** An editor with a mode and the drag flag, whose [setMode] only sets the
    mode. *)
Record Editor := mkEditor {
  mode : string;
  _internalDrag : bool;
}.

Definition setMode (m : string) (ed : Editor) : Editor :=
  {| mode := m; _internalDrag := _internalDrag ed |}.

(** A converter that gives up on the empty string and finds no blocks in
    a lone comment. *)
Definition convert (html : string) (_ : unit) (_ : option unit) (_ : option unit)
    : option (@ProcessHTML.HTMLResult string unit) :=
  if decide (html = "") then None
  else if decide (html = "<!-- -->") then
    Some {| ProcessHTML.contentBlocks := None; ProcessHTML.entityMap := tt |}
  else
    Some {| ProcessHTML.contentBlocks := Some [html]; ProcessHTML.entityMap := tt |}.

(** A selection: anchor key, focus key, focus flag; never backward. *)
Record Selection := mkSelection {
  anchorKey : string;
  focusKey : string;
  hasFocus : bool;
}.

(** A page with two nodes: node [0] is the editor, 30 pixels down, and any
    other node is a block 500 pixels down and 40 high.  The scroll parent is
    the window, 300 pixels high and scrolled down by 100. *)
#[export] Instance collaborators : DraftEditorBlock.Collaborators := {|
  DraftEditorBlock.Block := nat;
  DraftEditorBlock.Tree := nat;
  DraftEditorBlock.SelectionState := Selection;
  DraftEditorBlock.ContentState := unit;
  DraftEditorBlock.DraftEditor := unit;
  DraftEditorBlock.DraftInlineStyle := list string;
  DraftEditorBlock.CustomStyleMap := unit;
  DraftEditorBlock.CustomStyleFn := unit;
  DraftEditorBlock.Component := string;
  DraftEditorBlock.DecoratorProps := unit;
  DraftEditorBlock.Node := nat;
  DraftEditorBlock.getKey := fun b => if decide (b = 0) then "a" else "b";
  DraftEditorBlock.getText := fun _ => "hello world";
  DraftEditorBlock.getInlineStyleAt := fun _ _ => [];
  DraftEditorBlock.getEntityAt := fun _ _ => None;
  DraftEditorBlock.getAnchorKey := anchorKey;
  DraftEditorBlock.getFocusKey := focusKey;
  DraftEditorBlock.getEndKey := focusKey;
  DraftEditorBlock.getHasFocus := hasFocus;
  DraftEditorBlock.leafSets := fun t =>
    if decide (t = 0) then
      [ {| DraftEditorBlock.start := 0; DraftEditorBlock.end_ := 5;
           DraftEditorBlock.decoratorKey := Some "link";
           DraftEditorBlock.leaves :=
             [DraftEditorBlock.mkLeaf 0 2; DraftEditorBlock.mkLeaf 2 5] |};
        {| DraftEditorBlock.start := 5; DraftEditorBlock.end_ := 11;
           DraftEditorBlock.decoratorKey := None;
           DraftEditorBlock.leaves := [DraftEditorBlock.mkLeaf 5 11] |} ]
    else [];
  DraftEditorBlock.encode := fun k _ _ => k;
  DraftEditorBlock.getDirection := fun _ => "LTR";
  DraftEditorBlock.getHTMLDirIfDifferent := fun d d' =>
    if decide (d = d') then None else Some d;
  DraftEditorBlock.findDOMNode_editor := fun _ => 0;
  DraftEditorBlock.getScrollParent := fun _ => None;
  DraftEditorBlock.getScrollPosition := fun _ =>
    {| DraftEditorBlock.scroll_x := 0; DraftEditorBlock.scroll_y := 100 |};
  DraftEditorBlock.getElementPosition := fun n =>
    if decide (n = 0)
    then DraftEditorBlock.mkPosition 0 30 600 800
    else DraftEditorBlock.mkPosition 0 500 600 40;
  DraftEditorBlock.getViewportDimensions_height := 300;
  DraftEditorBlock.document_body := 0;
|}.

(** A decorator that knows the key ["link"] only. *)
Definition linkDecorator : DraftEditorBlock.DraftDecoratorType :=
  {| DraftEditorBlock.getComponentForKey := fun k =>
       if decide (k = "link") then Some "Link" else None;
     DraftEditorBlock.getPropsForKey := fun _ => None |}.

Definition props (b t : nat) (sel : Selection) (force : bool) : DraftEditorBlock.Props :=
  {| DraftEditorBlock.block := b;
     DraftEditorBlock.contentState := tt;
     DraftEditorBlock.customStyleFn := tt;
     DraftEditorBlock.customStyleMap := tt;
     DraftEditorBlock.decorator := Some linkDecorator;
     DraftEditorBlock.direction := "LTR";
     DraftEditorBlock.forceSelection := force;
     DraftEditorBlock.offsetKey := "a-0-0";
     DraftEditorBlock.selection := sel;
     DraftEditorBlock.tree := t;
     DraftEditorBlock.editor := tt |}.

(** Offset keys that tell the indices apart: [i] times ["a"], a dash,
    [j] times ["a"], a colon and the block key. *)
Fixpoint unary (n : nat) : string :=
  match n with
  | 0 => EmptyString
  | S n' => String (Ascii.ascii_of_nat 97) (unary n')
  end.

Definition encode (k : string) (i j : nat) : string :=
  String.append (unary i)
    (String (Ascii.ascii_of_nat 45)
       (String.append (unary j) (String (Ascii.ascii_of_nat 58) k))).

(** A second page.  The scroll parent of every block is the element [9],
    which starts where the editor (node [0]) starts, is 300 pixels high and
    is scrolled down by 100.  Node [1] is a block inside the visible area,
    node [2] a block higher than the visible area with its top inside, any
    other node a block above the visible top.  Tree [0] is as on the first
    page; any other tree has one decorated leaf set without leaves. *)
Definition page : DraftEditorBlock.Collaborators := {|
  DraftEditorBlock.Block := nat;
  DraftEditorBlock.Tree := nat;
  DraftEditorBlock.Block_eq_dec := Nat.eq_dec;
  DraftEditorBlock.Tree_eq_dec := Nat.eq_dec;
  DraftEditorBlock.SelectionState := Selection;
  DraftEditorBlock.ContentState := unit;
  DraftEditorBlock.DraftEditor := unit;
  DraftEditorBlock.DraftInlineStyle := list string;
  DraftEditorBlock.CustomStyleMap := unit;
  DraftEditorBlock.CustomStyleFn := unit;
  DraftEditorBlock.Component := string;
  DraftEditorBlock.DecoratorProps := unit;
  DraftEditorBlock.Node := nat;
  DraftEditorBlock.getKey := fun b => if decide (b = 0) then "a" else "b";
  DraftEditorBlock.getText := fun _ => "hello world";
  DraftEditorBlock.getInlineStyleAt := fun _ _ => [];
  DraftEditorBlock.getEntityAt := fun _ _ => None;
  DraftEditorBlock.getAnchorKey := anchorKey;
  DraftEditorBlock.getFocusKey := focusKey;
  DraftEditorBlock.getEndKey := focusKey;
  DraftEditorBlock.getHasFocus := hasFocus;
  DraftEditorBlock.leafSets := fun t =>
    if decide (t = 0) then
      [ {| DraftEditorBlock.start := 0; DraftEditorBlock.end_ := 5;
           DraftEditorBlock.decoratorKey := Some "link";
           DraftEditorBlock.leaves :=
             [DraftEditorBlock.mkLeaf 0 2; DraftEditorBlock.mkLeaf 2 5] |};
        {| DraftEditorBlock.start := 5; DraftEditorBlock.end_ := 11;
           DraftEditorBlock.decoratorKey := None;
           DraftEditorBlock.leaves := [DraftEditorBlock.mkLeaf 5 11] |} ]
    else
      [ {| DraftEditorBlock.start := 0; DraftEditorBlock.end_ := 0;
           DraftEditorBlock.decoratorKey := Some "link";
           DraftEditorBlock.leaves := [] |} ];
  DraftEditorBlock.encode := encode;
  DraftEditorBlock.getDirection := fun _ => "LTR";
  DraftEditorBlock.getHTMLDirIfDifferent := fun d d' =>
    if decide (d = d') then None else Some d;
  DraftEditorBlock.findDOMNode_editor := fun _ => 0;
  DraftEditorBlock.getScrollParent := fun _ => Some 9;
  DraftEditorBlock.getScrollPosition := fun _ =>
    {| DraftEditorBlock.scroll_x := 0; DraftEditorBlock.scroll_y := 100 |};
  DraftEditorBlock.getElementPosition := fun n =>
    match n with
    | 0 => DraftEditorBlock.mkPosition 0 30 600 800
    | 1 => DraftEditorBlock.mkPosition 0 100 600 40
    | 2 => DraftEditorBlock.mkPosition 0 40 600 400
    | 9 => DraftEditorBlock.mkPosition 0 30 600 300
    | _ => DraftEditorBlock.mkPosition 0 (-50) 600 40
    end;
  DraftEditorBlock.getViewportDimensions_height := 300;
  DraftEditorBlock.document_body := 0;
|}.

Definition pageDecorator : @DraftEditorBlock.DraftDecoratorType page :=
  @DraftEditorBlock.mkDecorator page
    (fun k => if decide (k = "link") then Some "Link" else None)
    (fun _ => None).

(** Props on the second page: block [b], tree [t], the selection and an
    optional decorator; direction ["LTR"], no forced selection. *)
Definition pageProps (b t : nat) (sel : Selection)
    (dec : option (@DraftEditorBlock.DraftDecoratorType page))
    : @DraftEditorBlock.Props page :=
  @DraftEditorBlock.mkProps page b tt tt tt dec "LTR" false "a-0-0" sel t tt.

(** What [_renderChildren] returns for block [0] with tree [0] on the
    second page, with and without the decorator. *)
Definition pageChildren : list (@DraftEditorBlock.Child page) :=
  Eval vm_compute in
    default [] (@DraftEditorBlock._renderChildren page
                  (pageProps 0 0 (mkSelection "a" "b" true) (Some pageDecorator))).

End Demo.

(* ===================================================================== *)
(** ** Facts: processText *)
(* ===================================================================== *)

Module PasteFacts.
Import DraftPasteProcessor.

Section Facts.

Context {CharacterMetadata KeyGen : Type}.
Variable generateRandomKey : KeyGen -> string * KeyGen.
Variable sanitizeDraftText : string -> string.
Variable experimentalTreeDataSupport : bool.

Abbreviation callback := (@callback CharacterMetadata KeyGen generateRandomKey sanitizeDraftText experimentalTreeDataSupport).
Abbreviation reduce := (@reduce CharacterMetadata KeyGen).
Abbreviation processText := (@processText CharacterMetadata KeyGen generateRandomKey sanitizeDraftText experimentalTreeDataSupport).
Abbreviation blocks_step := (@blocks_step CharacterMetadata sanitizeDraftText experimentalTreeDataSupport).
Abbreviation blocks_run := (@blocks_run CharacterMetadata KeyGen generateRandomKey sanitizeDraftText experimentalTreeDataSupport).
Abbreviation processText_result := (@processText_result CharacterMetadata KeyGen generateRandomKey sanitizeDraftText experimentalTreeDataSupport).
Abbreviation processText_twice := (@processText_twice CharacterMetadata KeyGen generateRandomKey sanitizeDraftText experimentalTreeDataSupport).
Abbreviation draw := (@draw KeyGen generateRandomKey).
Abbreviation Store := (@Store CharacterMetadata KeyGen).
Abbreviation BlockNodeRecord := (@BlockNodeRecord CharacterMetadata).

Lemma frame_refl (s : Store) : frame s s.
Proof. by repeat split. Qed.

Lemma frame_trans (s1 s2 s3 : Store) : frame s1 s2 → frame s2 s3 → frame s1 s3.
Proof.
  intros (Ha & Hb & Hc) (Ha' & Hb' & Hc'). repeat split; try congruence.
  by etrans.
Qed.

Lemma alloc_frame (r : BlockNodeRecord) (s : Store) a s' : alloc r s = Some (a, s') → frame s s'.
Proof.
  unfold alloc. intros [= <- <-]. repeat split; simpl. by apply prefix_app_r.
Qed.

Lemma deref_store a (s : Store) r s' : deref a s = Some (r, s') → s' = s.
Proof.
  unfold deref. destruct a as [a|]; [|done].
  destruct (st_records s !! a); [|done]. by intros [= _ <-].
Qed.

Lemma merge_frame a k (s : Store) a' s' :
  merge_nextSibling a k s = Some (a', s') → frame s s'.
Proof.
  unfold merge_nextSibling, bind.
  destruct (deref a s) as [[r s1]|] eqn:Hd; [|done].
  apply deref_store in Hd as ->.
  destruct a as [a|]; [|done].
  case_decide.
  - intros [= _ <-]. apply frame_refl.
  - apply alloc_frame.
Qed.

Lemma callback_frame ty acc line index s acc' s' :
  callback ty acc line index s = Some (acc', s') → frame s s'.
Proof.
  unfold callback, bind, freshKey, readCharacter.
  destruct (generateRandomKey (st_keygen s)) as [k g].
  set (s1 := {| st_textBlocks := _ |}).
  assert (frame s s1) as H1 by (by repeat split).
  destruct (experimentalTreeDataSupport && negb (index =? 0)).
  - destruct (merge_nextSibling _ _ s1) as [[pa s2]|] eqn:Hm; [|done].
    apply merge_frame in Hm.
    destruct (deref (Some pa) s2) as [[pb s3]|] eqn:Hd; [|done].
    apply deref_store in Hd as ->. simpl.
    intros [= _ <-]. eapply frame_trans; [eapply frame_trans|]; [done..|].
    by eapply alloc_frame.
  - simpl. intros [= _ <-]. eapply frame_trans; [done|]. by eapply alloc_frame.
Qed.


Lemma getBlocks_Forall2 (s : Store) acc (bs : list BlockNodeRecord) :
  getBlocks s acc = Some bs ↔ Forall2 (λ a b, st_records s !! a = Some b) acc bs.
Proof. apply mapM_Some. Qed.

Lemma getBlocks_frame (s s' : Store) acc (bs : list BlockNodeRecord) :
  frame s s' → getBlocks s acc = Some bs → getBlocks s' acc = Some bs.
Proof.
  intros (_ & _ & Hp). rewrite !getBlocks_Forall2.
  intros HF. eapply Forall2_impl; [exact HF|].
  intros a b Hab. by apply (prefix_lookup_Some _ _ _ _ Hab).
Qed.

Lemma with_nextSibling_same k (r : BlockNodeRecord) :
  nextSibling r = Some k → with_nextSibling k r = r.
Proof. destruct r; simpl. by intros ->. Qed.

Lemma callback_blocks ty acc line (s : Store) (bs : list BlockNodeRecord) :
  getBlocks s acc = Some bs →
  ∃ acc' s',
    callback ty acc line (length acc) s = Some (acc', s') ∧
    st_keygen s' = (generateRandomKey (st_keygen s)).2 ∧
    length acc' = S (length acc) ∧
    getBlocks s' acc' =
      Some (blocks_step ty (st_character s) bs line (generateRandomKey (st_keygen s)).1).
Proof.
  intros Hg. apply getBlocks_Forall2 in Hg.
  pose proof (Forall2_length _ _ _ Hg) as Hlen.
  unfold callback, blocks_step, bind, freshKey, readCharacter.
  destruct (generateRandomKey (st_keygen s)) as [k g]. simpl.
  rewrite <- Hlen.
  destruct (experimentalTreeDataSupport && negb (length acc =? 0)) eqn:Hlinked.
  - apply andb_true_iff in Hlinked as [_ Hnz].
    apply negb_true_iff, Nat.eqb_neq in Hnz.
    destruct (lookup_lt_is_Some_2 acc (length acc - 1)) as [a Ha]; [lia|].
    destruct (lookup_lt_is_Some_2 bs (length acc - 1)) as [r Hr]; [lia|].
    pose proof (Forall2_lookup_lr _ _ _ _ _ _ Hg Ha Hr) as Har.
    rewrite Ha, Hr. unfold merge_nextSibling, bind, deref at 1. simpl.
    rewrite Har. case_decide as Hn.
    + (* the merge changes nothing: the receiver comes back *)
      unfold ret, deref, alloc. simpl. rewrite Har. simpl.
      eexists _, _. split; [done|]. split; [done|].
      split; [rewrite length_app, length_insert; simpl; lia|].
      apply getBlocks_Forall2. simpl.
      rewrite list_insert_id by done.
      apply Forall2_app.
      * replace (alter (with_nextSibling k) (length acc - 1) bs) with bs.
        { eapply Forall2_impl; [done|]. intros ???. by apply lookup_app_l_Some. }
        symmetry. apply list_eq. intros j. rewrite list_lookup_alter.
        case_decide; [subst j|done]. rewrite Hr. simpl.
        by rewrite with_nextSibling_same.
      * constructor; [|constructor]. by apply list_lookup_middle.
    + (* a new record for the previous block *)
      unfold alloc at 1. simpl. unfold deref, ret, alloc. simpl.
      rewrite list_lookup_middle by done. simpl.
      eexists _, _. split; [done|]. split; [done|].
      split; [rewrite length_app, length_insert; simpl; lia|].
      apply getBlocks_Forall2. simpl.
      apply Forall2_app.
      * rewrite list_insert_alter. apply Forall2_alter.
        { eapply Forall2_impl; [done|]. intros ???.
          rewrite <- app_assoc. by apply lookup_app_l_Some. }
        intros a0 r0 Ha0 Hr0 _. rewrite Hr in Hr0. injection Hr0 as <-.
        rewrite <- app_assoc. by apply list_lookup_middle.
      * constructor; [|constructor]. apply list_lookup_middle.
        by rewrite length_app.
  - unfold ret, alloc. simpl.
    eexists _, _. split; [done|]. split; [done|].
    split; [rewrite length_app; simpl; lia|].
    apply getBlocks_Forall2. simpl.
    apply Forall2_app.
    + eapply Forall2_impl; [done|]. intros ???. by apply lookup_app_l_Some.
    + constructor; [|constructor]. by apply list_lookup_middle.
Qed.


(** An invariant rule for [reduce] over an array of [N] elements none of
    which is missing. *)
Lemma reduce_inv (N : nat) (I : nat → list addr → Store → Prop) f :
  (∀ k acc s, k < N → I k acc s →
     ∃ line acc' s', st_textBlocks s !! k = Some line ∧
                     f acc line k s = Some (acc', s') ∧ I (S k) acc' s') →
  ∀ n k acc s, k + n ≤ N → I k acc s →
     ∃ acc' s', reduce f n k acc s = Some (acc', s') ∧ I (k + n) acc' s'.
Proof.
  intros Hstep. induction n as [|n IH]; intros k acc s Hle HI.
  - exists acc, s. rewrite Nat.add_0_r. by split.
  - destruct (Hstep k acc s) as (line & acc1 & s1 & Hl & Hf & HI1); [lia|done|].
    destruct (IH (S k) acc1 s1) as (acc' & s' & Hr & HI'); [lia|done|].
    exists acc', s'. split.
    + simpl. unfold bind, readLine. by rewrite Hl, Hf.
    + by replace (k + S n) with (S k + n) by lia.
Qed.

Lemma blocks_run_app ty (c : CharacterMetadata) l1 l2 g bs :
  blocks_run ty c (l1 ++ l2) g bs =
  blocks_run ty c l2 (blocks_run ty c l1 g bs).2 (blocks_run ty c l1 g bs).1.
Proof.
  revert g bs. induction l1 as [|l l1 IH]; intros g bs; simpl; [done|].
  destruct (generateRandomKey g) as [k g']. apply IH.
Qed.

Lemma blocks_run_snoc ty (c : CharacterMetadata) l line g bs :
  blocks_run ty c (l ++ [line]) g bs =
  (blocks_step ty c (blocks_run ty c l g bs).1 line
     (generateRandomKey (blocks_run ty c l g bs).2).1,
   (generateRandomKey (blocks_run ty c l g bs).2).2).
Proof.
  rewrite blocks_run_app. simpl.
  by destruct (generateRandomKey _) as [k g'].
Qed.

(** [processText] returns, and the array it returns holds the records of
    [blocks_run]; the arguments and the records that existed before the call
    are as they were. *)
Lemma processText_blocks tb (c : CharacterMetadata) ty h g :
  ∃ acc s',
    processText tb c ty h g = Some (acc, s') ∧
    frame (mkStore tb c h g) s' ∧
    length acc = length tb ∧
    getBlocks s' acc = Some (blocks_run ty c tb g []).1 ∧
    st_keygen s' = (blocks_run ty c tb g []).2.
Proof.
  set (s0 := mkStore tb c h g).
  pose (I := λ (k : nat) (acc : list addr) (s : Store),
    frame s0 s ∧ length acc = k ∧
    getBlocks s acc = Some (blocks_run ty c (take k tb) g []).1 ∧
    st_keygen s = (blocks_run ty c (take k tb) g []).2).
  destruct (reduce_inv (length tb) I (callback ty)) with
    (n := length tb) (k := 0) (acc := @nil addr) (s := s0)
    as (acc & s' & Hr & Hf & Hlen & Hb & Hg).
  - intros k acc s Hk (Hf & Hlen & Hb & Hg).
    destruct (lookup_lt_is_Some_2 tb k Hk) as [line Hline].
    destruct (callback_blocks ty acc line s _ Hb) as (acc' & s' & Hc & Hg' & Hlen' & Hb').
    exists line, acc', s'. split; [by rewrite (proj1 Hf)|].
    rewrite Hlen in Hc. split; [done|].
    split; [|split; [lia|]].
    + eapply frame_trans; [done|]. by eapply callback_frame.
    + rewrite (take_S_r _ _ _ Hline), blocks_run_snoc. simpl.
      rewrite Hb', Hg', Hg. by rewrite (proj1 (proj2 Hf)).
  - lia.
  - by repeat split.
  - exists acc, s'. simpl in *. rewrite firstn_all in Hb, Hg. done.
Qed.


(** *** Facts about the value-level reading *)

Lemma fmap_alter_nextSibling {B} (f : BlockNodeRecord → B) k i (bs : list BlockNodeRecord) :
  (∀ r, f (with_nextSibling k r) = f r) →
  f <$> alter (with_nextSibling k) i bs = f <$> bs.
Proof.
  intros Hf. apply list_eq. intros j.
  rewrite !list_lookup_fmap, list_lookup_alter.
  case_decide; [subst j|done]. destruct (bs !! i); simpl; [|done]. by rewrite Hf.
Qed.

Lemma blocks_step_fmap {B} (f : BlockNodeRecord → B) ty (c : CharacterMetadata) bs line k :
  (∀ r, f (with_nextSibling k r) = f r) →
  ∃ p, f <$> blocks_step ty c bs line k =
       (f <$> bs) ++
       [f {| key := k; type := ty; text := sanitizeDraftText line;
             characterList :=
               replicate (String.length (sanitizeDraftText line)) c;
             prevSibling := p; nextSibling := None |}].
Proof.
  intros Hf. unfold blocks_step. eexists. rewrite fmap_app. f_equal.
  destruct (_ && _); [|done]. by apply fmap_alter_nextSibling.
Qed.

Lemma blocks_run_fmap {B} (f : BlockNodeRecord → B) (fl : string → B)
    ty (c : CharacterMetadata) lines g bs :
  (∀ k r, f (with_nextSibling k r) = f r) →
  (∀ k line p,
     f {| key := k; type := ty; text := sanitizeDraftText line;
          characterList := replicate (String.length (sanitizeDraftText line)) c;
          prevSibling := p; nextSibling := None |} = fl line) →
  f <$> (blocks_run ty c lines g bs).1 = (f <$> bs) ++ (fl <$> lines).
Proof.
  intros Hm Hn. revert g bs.
  induction lines as [|line lines IH]; intros g bs; simpl.
  - by rewrite app_nil_r.
  - destruct (generateRandomKey g) as [k g']. rewrite IH.
    destruct (blocks_step_fmap f ty c bs line k) as [p ->]; [done|].
    rewrite Hn. simpl. by rewrite <- app_assoc.
Qed.

Lemma blocks_run_key ty (c : CharacterMetadata) lines g bs :
  key <$> (blocks_run ty c lines g bs).1 =
  (key <$> bs) ++ draw (length lines) g.
Proof.
  revert g bs. induction lines as [|line lines IH]; intros g bs; simpl.
  - by rewrite app_nil_r.
  - destruct (generateRandomKey g) as [k g']. rewrite IH.
    destruct (blocks_step_fmap key ty c bs line k) as [p ->]; [done|].
    simpl. by rewrite <- app_assoc.
Qed.

Lemma blocks_run_length ty (c : CharacterMetadata) lines g bs :
  length (blocks_run ty c lines g bs).1 = length bs + length lines.
Proof.
  rewrite <- (length_fmap key), blocks_run_key.
  rewrite length_app, length_fmap. f_equal.
  revert g. clear bs. induction lines as [|line lines IH]; intros g; simpl; [done|].
  destruct (generateRandomKey g) as [k g']. simpl. by rewrite IH.
Qed.

(** A relation between a line and its record that [merge] keeps and that
    the record built for the line satisfies, holds line by line. *)
Lemma blocks_run_Forall2 (Q : string → BlockNodeRecord → Prop)
    ty (c : CharacterMetadata) lines g ls0 bs :
  (∀ line k r, Q line r → Q line (with_nextSibling k r)) →
  (∀ k line p,
     Q line
       {| key := k; type := ty; text := sanitizeDraftText line;
          characterList := replicate (String.length (sanitizeDraftText line)) c;
          prevSibling := p; nextSibling := None |}) →
  Forall2 Q ls0 bs → Forall2 Q (ls0 ++ lines) (blocks_run ty c lines g bs).1.
Proof.
  intros Hm Hn. revert g ls0 bs.
  induction lines as [|line lines IH]; intros g ls0 bs Hbs; simpl.
  - by rewrite app_nil_r.
  - destruct (generateRandomKey g) as [k g'].
    change (ls0 ++ line :: lines) with (ls0 ++ [line] ++ lines).
    rewrite app_assoc. apply IH.
    unfold blocks_step. apply Forall2_app.
    + destruct (_ && _); [|done].
      apply Forall2_alter_r; [done|]. intros l r _ _. apply Hm.
    + constructor; [apply Hn|constructor].
Qed.

Lemma draw_length n (g : KeyGen) : length (draw n g) = n.
Proof.
  revert g. induction n as [|n IH]; intros g; simpl; [done|].
  destruct (generateRandomKey g) as [k g']. simpl. by rewrite IH.
Qed.

(** Drawing on after a run continues the same sequence of keys. *)
Lemma draw_after_run ty (c : CharacterMetadata) lines g bs m :
  draw (length lines + m) g =
  draw (length lines) g ++
  draw m (blocks_run ty c lines g bs).2.
Proof.
  revert g bs. induction lines as [|line lines IH]; intros g bs; simpl; [done|].
  destruct (generateRandomKey g) as [k g']. simpl. f_equal. apply IH.
Qed.

(** The result depends on the key generator only through the keys drawn. *)
Lemma blocks_run_draw ty (c : CharacterMetadata) lines g1 g2 bs :
  draw (length lines) g1 = draw (length lines) g2 →
  (blocks_run ty c lines g1 bs).1 = (blocks_run ty c lines g2 bs).1.
Proof.
  revert g1 g2 bs. induction lines as [|line lines IH]; intros g1 g2 bs; simpl; [done|].
  destruct (generateRandomKey g1) as [k1 g1'], (generateRandomKey g2) as [k2 g2'].
  intros [= -> Hd]. by apply IH.
Qed.

(** The records of a sibling chain that ends in [r], after [r] has been
    linked to a new last record [n]. *)
Lemma sibling_chain_snoc (bs0 : list BlockNodeRecord) r n :
  sibling_chain (bs0 ++ [r]) →
  prevSibling n = Some (key r) → nextSibling n = None →
  sibling_chain (bs0 ++ [with_nextSibling (key n) r; n]).
Proof.
  intros (Hpair & Hhead & Hlast) Hp Hn. split; [|split].
  - intros i b b' Hb Hb'.
    destruct (decide (S i < length bs0)).
    + rewrite lookup_app_l in Hb, Hb' by lia.
      apply (Hpair i); by rewrite lookup_app_l by lia.
    + destruct (decide (S i = length bs0)) as [Heq|].
      * rewrite lookup_app_l in Hb by lia.
        rewrite list_lookup_middle in Hb' by done. injection Hb' as <-.
        simpl. apply (Hpair i); [by rewrite lookup_app_l by lia|].
        by rewrite list_lookup_middle.
      * destruct (decide (i = length bs0)) as [->|].
        -- rewrite list_lookup_middle in Hb by done. injection Hb as <-.
           rewrite lookup_app_r in Hb' by lia.
           replace (S (length bs0) - length bs0) with 1 in Hb' by lia.
           injection Hb' as <-. by simpl.
        -- apply lookup_lt_Some in Hb'. rewrite length_app in Hb'. simpl in Hb'. lia.
  - intros b. destruct bs0 as [|b0 bs0]; simpl.
    + intros [= <-]. simpl. by apply Hhead.
    + intros [= <-]. by apply Hhead.
  - intros b.
    change (bs0 ++ [with_nextSibling (key n) r; n])
      with (bs0 ++ [with_nextSibling (key n) r] ++ [n]).
    rewrite app_assoc, last_snoc. by intros [= <-].
Qed.

Lemma blocks_step_chain ty (c : CharacterMetadata) bs line k :
  experimentalTreeDataSupport = true →
  sibling_chain bs → sibling_chain (blocks_step ty c bs line k).
Proof.
  intros Htree Hc. unfold blocks_step. rewrite Htree. simpl.
  destruct bs as [|b0 bs1] using rev_ind; simpl.
  - split; [|split].
    + intros [|i] b b' Hb Hb'; done.
    + by intros b [= <-].
    + by intros b [= <-].
  - clear IHbs1. rewrite length_app. simpl.
    replace (length bs1 + 1 =? 0) with false by (symmetry; apply Nat.eqb_neq; lia).
    simpl. replace (length bs1 + 1 - 1) with (length bs1) by lia.
    rewrite list_lookup_middle by done. simpl.
    rewrite alter_app_r_alt by lia. rewrite Nat.sub_diag. simpl.
    rewrite <- app_assoc. simpl.
    by apply (sibling_chain_snoc bs1 b0
      {| key := k; type := ty; text := sanitizeDraftText line;
         characterList := replicate (String.length (sanitizeDraftText line)) c;
         prevSibling := Some (key b0); nextSibling := None |}).
Qed.

Lemma blocks_run_chain ty (c : CharacterMetadata) lines g bs :
  experimentalTreeDataSupport = true →
  sibling_chain bs → sibling_chain (blocks_run ty c lines g bs).1.
Proof.
  intros Htree. revert g bs.
  induction lines as [|line lines IH]; intros g bs Hc; simpl; [done|].
  destruct (generateRandomKey g) as [k g']. apply IH.
  by apply blocks_step_chain.
Qed.

Lemma sibling_chain_nil : sibling_chain (@nil BlockNodeRecord).
Proof. split; [|split]; [by intros [|?] ?? |done..]. Qed.


(** *** The callback in tree mode, address by address *)

Lemma callback_first ty line (s : Store) :
  ∃ s' n,
    callback ty [] line 0 s = Some ([length (st_records s)], s') ∧
    st_records s' = st_records s ++ [n] ∧ nextSibling n = None.
Proof.
  unfold callback, bind, freshKey, readCharacter.
  destruct (generateRandomKey (st_keygen s)) as [k g].
  rewrite andb_false_r. unfold ret, alloc. simpl.
  by eexists _, _.
Qed.

Lemma callback_linked ty acc line (s : Store) a r :
  experimentalTreeDataSupport = true →
  length acc ≠ 0 →
  acc !! (length acc - 1) = Some a →
  st_records s !! a = Some r →
  nextSibling r = None →
  ∃ s' n,
    callback ty acc line (length acc) s =
      Some (<[length acc - 1 := length (st_records s)]> acc ++
              [S (length (st_records s))], s') ∧
    st_records s' = st_records s ++ [with_nextSibling (key n) r; n] ∧
    nextSibling n = None.
Proof.
  intros Htree Hnz Ha Hr Hn.
  unfold callback, bind, freshKey, readCharacter.
  destruct (generateRandomKey (st_keygen s)) as [k g].
  rewrite Htree. apply Nat.eqb_neq in Hnz. rewrite Hnz. simpl.
  rewrite Ha. unfold merge_nextSibling, bind, deref at 1. simpl.
  rewrite Hr. rewrite Hn. case_decide; [done|].
  unfold alloc at 1. simpl. unfold deref, ret, alloc. simpl.
  rewrite list_lookup_middle by done. simpl.
  eexists _, (ContentBlockRecord (mkConfig k ty _ _ (Some (key r)))).
  split; [|split].
  - by rewrite length_app, Nat.add_1_r.
  - simpl. by rewrite <- app_assoc.
  - done.
Qed.

Lemma callback_relinked ty acc line (s : Store) :
  experimentalTreeDataSupport = true →
  relinked acc s →
  ∃ acc' s', callback ty acc line (length acc) s = Some (acc', s') ∧
             length acc' = S (length acc) ∧ relinked acc' s'.
Proof.
  intros Htree (Hlast & Hcopy).
  destruct (decide (length acc = 0)) as [Hz|Hnz].
  - apply nil_length_inv in Hz as ->.
    destruct (callback_first ty line s) as (s' & n & Hc & Hrec & Hn).
    eexists _, s'. split; [exact Hc|]. split; [done|]. split.
    + intros a [= <-]. exists n. split; [|done].
      rewrite Hrec. by apply list_lookup_middle.
    + intros [|i] a Ha; simpl; lia.
  - destruct (lookup_lt_is_Some_2 acc (length acc - 1)) as [a Ha]; [lia|].
    destruct (Hlast a) as (r & Hr & Hn).
    { rewrite last_lookup. by replace (pred (length acc)) with (length acc - 1) by lia. }
    destruct (callback_linked ty acc line s a r) as (s' & n & Hc & Hrec & Hn');
      [done..|].
    eexists _, s'. split; [exact Hc|].
    split; [rewrite length_app, length_insert; simpl; lia|]. split.
    + intros a'. rewrite last_snoc. intros [= <-]. exists n. split; [|done].
      rewrite Hrec.
      change (st_records s ++ [with_nextSibling (key n) r; n])
        with (st_records s ++ [with_nextSibling (key n) r] ++ [n]).
      rewrite app_assoc. apply list_lookup_middle.
      rewrite length_app. simpl. lia.
    + intros i a'. rewrite length_app, length_insert. simpl.
      intros Hi Hlt. rewrite lookup_app_l in Hi by (rewrite length_insert; lia).
      destruct (decide (i = length acc - 1)) as [->|Hne].
      * rewrite list_lookup_insert_eq in Hi by lia. injection Hi as <-.
        exists a, r, (key n). rewrite Hrec.
        pose proof (lookup_lt_Some _ _ _ Hr).
        split; [lia|]. split; [by apply lookup_app_l_Some|].
        split; [done|]. by apply list_lookup_middle.
      * rewrite list_lookup_insert_ne in Hi by done.
        destruct (Hcopy i a') as (a0 & r0 & k & Hd & H0 & Hn0 & Ha'); [done|lia|].
        exists a0, r0, k. rewrite Hrec.
        split; [done|]. split; [by apply lookup_app_l_Some|].
        split; [done|]. by apply lookup_app_l_Some.
Qed.

Lemma processText_relinked tb (c : CharacterMetadata) ty h g acc s' :
  experimentalTreeDataSupport = true →
  processText tb c ty h g = Some (acc, s') →
  relinked acc s'.
Proof.
  intros Htree Hp.
  set (s0 := mkStore tb c h g).
  pose (I := λ (k : nat) (acc : list addr) (s : Store),
    st_textBlocks s = tb ∧ length acc = k ∧ relinked acc s).
  destruct (reduce_inv (length tb) I (callback ty)) with
    (n := length tb) (k := 0) (acc := @nil addr) (s := s0)
    as (acc1 & s1 & Hr & _ & _ & Hrel).
  - intros k acc0 s Hk (Htb & Hlen & Hrel).
    destruct (lookup_lt_is_Some_2 tb k Hk) as [line Hline].
    destruct (callback_relinked ty acc0 line s Htree Hrel) as (acc' & s1 & Hc & Hl & Hrel').
    exists line, acc', s1. rewrite Htb. split; [done|].
    rewrite Hlen in Hc. split; [done|].
    apply callback_frame in Hc as Hf.
    split; [by rewrite (proj1 Hf)|]. split; [lia|done].
  - lia.
  - split; [done|]. split; [done|]. split; [done|].
    intros i a Hi. by rewrite lookup_nil in Hi.
  - unfold DraftPasteProcessor.processText, processText_body in Hp. simpl in Hp.
    fold s0 in Hp. rewrite Hr in Hp. by injection Hp as <- <-.
Qed.


(** *** The claims about [processText] *)

Lemma processText_result_blocks tb (c : CharacterMetadata) ty h g :
  processText_result tb c ty h g = Some (blocks_run ty c tb g []).1.
Proof.
  unfold processText_result.
  by destruct (processText_blocks tb c ty h g) as (acc & s' & -> & _ & _ & -> & _).
Qed.

(** C1, as amended.  Two calls of [processText] in a row with the same
    arguments both return; the two arrays agree block by block on text, type
    and character list; the keys of the first array followed by those of the
    second are the keys that [generateRandomKey] hands out, in order, from the
    state it is in at the first call; and the arrays are equal whenever the
    keys are.  Nothing makes the keys equal. *)
Theorem C1_processText_twice tb (c : CharacterMetadata) ty h g :
  ∃ bs1 bs2,
    processText_twice tb c ty h g = Some (bs1, bs2) ∧
    text <$> bs1 = text <$> bs2 ∧
    type <$> bs1 = type <$> bs2 ∧
    characterList <$> bs1 = characterList <$> bs2 ∧
    (key <$> bs1) ++ (key <$> bs2) =
      draw (length tb + length tb) g ∧
    (key <$> bs1 = key <$> bs2 → bs1 = bs2).
Proof.
  unfold processText_twice.
  destruct (processText_blocks tb c ty h g) as (acc1 & s1 & -> & _ & _ & Hb1 & Hg1).
  destruct (processText_blocks tb c ty (st_records s1) (st_keygen s1))
    as (acc2 & s2 & -> & _ & _ & Hb2 & _).
  rewrite Hb1, Hb2, Hg1. eexists _, _. split; [done|].
  rewrite !(blocks_run_fmap text sanitizeDraftText) by done.
  rewrite !(blocks_run_fmap type (λ _, ty)) by done.
  rewrite !(blocks_run_fmap characterList
              (λ l, replicate (String.length (sanitizeDraftText l)) c)) by done.
  rewrite !blocks_run_key. simpl.
  rewrite (draw_after_run ty c tb g []).
  repeat (split; [done|]).
  intros Hk. by apply blocks_run_draw.
Qed.

(** C2.  [processText] returns, and when it has returned the [textBlocks]
    array and the [character] object are what they were and every record that
    was in the store before the call is still there, unchanged; the same
    holds across every single call of the callback, so no record is changed
    after it has been built.  With tree data support, every block of the
    returned array except the last is a record at an address of its own that
    is [merge({nextSibling})] of a record still in the store with its
    [nextSibling] unset: the link was made on a new record. *)
Theorem C2_processText_immutable tb (c : CharacterMetadata) ty h g :
  ∃ acc s',
    processText tb c ty h g = Some (acc, s') ∧
    frame (mkStore tb c h g) s' ∧
    (∀ ty' acc0 line i (s0 : Store) acc1 s1,
       callback ty' acc0 line i s0 = Some (acc1, s1) → frame s0 s1) ∧
    (experimentalTreeDataSupport = true → relinked acc s').
Proof.
  destruct (processText_blocks tb c ty h g) as (acc & s' & Hp & Hf & _).
  exists acc, s'. split; [done|]. split; [done|]. split.
  - intros ty' acc0 line i s0 acc1 s1. apply callback_frame.
  - intros Htree. by eapply processText_relinked.
Qed.

(** C3.  [processText] returns one block per element of [textBlocks], in
    the same order; each block has the given type, and its text is
    [sanitizeDraftText] of the line at the same index. *)
Theorem C3_processText_one_block_per_line tb (c : CharacterMetadata) ty h g :
  ∃ bs,
    processText_result tb c ty h g = Some bs ∧
    length bs = length tb ∧
    Forall2 (λ line b, type b = ty ∧ text b = sanitizeDraftText line) tb bs.
Proof.
  rewrite processText_result_blocks. eexists. split; [done|].
  split; [by rewrite blocks_run_length|].
  by apply (blocks_run_Forall2 _ ty c tb g [] []).
Qed.

(** C4.  For every line, the block built for it has a character list as
    long as its text (the sanitized line), and every element of the list is
    the [character] argument. *)
Theorem C4_processText_characterList tb (c : CharacterMetadata) ty h g :
  ∃ bs,
    processText_result tb c ty h g = Some bs ∧
    Forall2 (λ line b,
      text b = sanitizeDraftText line ∧
      length (characterList b) = String.length (text b) ∧
      Forall (λ m, m = c) (characterList b)) tb bs.
Proof.
  rewrite processText_result_blocks. eexists. split; [done|].
  apply (blocks_run_Forall2 _ ty c tb g [] []); [by intros line k [] | | done].
  intros k line p. simpl. split; [done|]. split.
  - apply length_replicate.
  - apply Forall_forall. intros m Hm. by apply elem_of_replicate in Hm as [-> _].
Qed.

(** C5.  With tree data support, the array [processText] returns is a
    sibling chain: for consecutive blocks, the later one's [prevSibling] is
    the earlier one's key and the earlier one's [nextSibling] is the later
    one's key; the first block has no [prevSibling] and the last one no
    [nextSibling]. *)
Theorem C5_processText_sibling_chain tb (c : CharacterMetadata) ty h g :
  experimentalTreeDataSupport = true →
  ∃ bs,
    processText_result tb c ty h g = Some bs ∧
    length bs = length tb ∧
    sibling_chain bs.
Proof.
  intros Htree. rewrite processText_result_blocks. eexists. split; [done|].
  split; [by rewrite blocks_run_length|].
  apply blocks_run_chain; [done|]. apply sibling_chain_nil.
Qed.

End Facts.

(** A run in tree mode on two lines.  The store ends with three records:
    the first block as it was built (address 0), its relinked copy (address
    1) and the second block (address 2); the returned array points to the
    last two. *)
Example processText_two_lines :
  processText Demo.counterKey Demo.dropCR true ["ab"; "c"] 7 "unstyled" [] 0 =
  Some ([1; 2],
        {| st_textBlocks := ["ab"; "c"];
           st_character := 7;
           st_records :=
             [ mkBlock "a" "unstyled" "ab" [7; 7] None None;
               mkBlock "a" "unstyled" "ab" [7; 7] None (Some "b");
               mkBlock "b" "unstyled" "c" [7] (Some "a") None ];
           st_keygen := 2 |}).
Proof. reflexivity. Qed.

(** C1, as stated, fails.  With a key supply that hands out a new key at
    every call, two calls in a row on the single line ["a"] return blocks
    with different keys. *)
Lemma C1_keys_differ :
  ∃ bs1 bs2,
    processText_twice Demo.counterKey Demo.dropCR false ["a"] 7 "unstyled" [] 0
      = Some (bs1, bs2) ∧
    key <$> bs1 = ["a"] ∧ key <$> bs2 = ["b"] ∧ bs1 ≠ bs2.
Proof.
  eexists _, _. split; [vm_compute; reflexivity|].
  split; [done|]. split; [done|]. discriminate.
Qed.

Lemma C5_witness :
  ∃ bs,
    processText_result Demo.counterKey Demo.dropCR true ["ab"; "c"; "xyz"]
      7 "unstyled" [] 0 = Some bs ∧
    length bs = 3 ∧
    sibling_chain bs.
Proof.
  exact (C5_processText_sibling_chain Demo.counterKey Demo.dropCR true
           ["ab"; "c"; "xyz"] 7 "unstyled" [] 0 eq_refl).
Defined.

End PasteFacts.

(* ===================================================================== *)
(** ** Facts: processHTML *)
(* ===================================================================== *)

Module ProcessHTMLFacts.
Import ProcessHTML.

Section Facts.

Context {BlockNodeRecord EntityMap DraftBlockRenderMap PostProcessInlineTag DOMBuilder : Type}.
Variable getSafeBodyFromHTML : DOMBuilder.
Variable convertFromHTMLtoContentBlocks :
  string -> DOMBuilder -> option DraftBlockRenderMap ->
  option PostProcessInlineTag -> option (@HTMLResult BlockNodeRecord EntityMap).

Abbreviation processHTML :=
  (processHTML getSafeBodyFromHTML convertFromHTMLtoContentBlocks).

(** C6.  [processHTML] returns exactly what
    [convertFromHTMLtoContentBlocks] returns on the same string with
    [getSafeBodyFromHTML], the block render map and the inline-tag
    post-processor.  Both absent results reach the caller as they are: when
    the converter returns null so does [processHTML], and when it returns a
    result whose [contentBlocks] is null, [processHTML] returns that
    result. *)
Theorem C6_processHTML_forwards html brm post :
  processHTML html brm post =
    convertFromHTMLtoContentBlocks html getSafeBodyFromHTML brm post ∧
  (convertFromHTMLtoContentBlocks html getSafeBodyFromHTML brm post = None →
   processHTML html brm post = None) ∧
  (∀ r, convertFromHTMLtoContentBlocks html getSafeBodyFromHTML brm post = Some r →
        contentBlocks r = None →
        ∃ r', processHTML html brm post = Some r' ∧
              contentBlocks r' = None ∧ entityMap r' = entityMap r).
Proof.
  unfold ProcessHTML.processHTML. split; [done|]. split; [done|].
  intros r Hr Hn. exists r. by rewrite Hr.
Qed.

End Facts.

(** Both absent results do occur with the example converter. *)
Lemma C6_witness :
  processHTML tt Demo.convert "" None None = None ∧
  ∃ r', processHTML tt Demo.convert "<!-- -->" None None = Some r' ∧
        contentBlocks r' = None ∧ entityMap r' = tt.
Proof.
  split.
  - exact (proj1 (proj2 (C6_processHTML_forwards tt Demo.convert "" None None)) eq_refl).
  - exact (proj2 (proj2 (C6_processHTML_forwards tt Demo.convert "<!-- -->" None None))
             _ eq_refl eq_refl).
Defined.

End ProcessHTMLFacts.

(* ===================================================================== *)
(** ** Facts: editOnDragOver *)
(* ===================================================================== *)

Module EditOnDragOverFacts.
Import EditOnDragOver.

Section Facts.

Context {DraftEditor EventData : Type}.
Variable setMode : string -> DraftEditor -> DraftEditor.

(** C7.  After [editOnDragOver] the editor is what [setMode('drag')] makes
    of it, and nothing else has touched it: whatever part of the editor
    [setMode('drag')] leaves alone, the [_internalDrag] flag for one, is as it
    was.  The event has its default prevented and is otherwise as it came. *)
Theorem C7_editOnDragOver (editor : DraftEditor) (e : @SyntheticDragEvent EventData) :
  (editOnDragOver setMode editor e).1 = setMode "drag" editor ∧
  defaultPrevented (editOnDragOver setMode editor e).2 = true ∧
  eventData (editOnDragOver setMode editor e).2 = eventData e ∧
  ∀ (A : Type) (field : DraftEditor → A),
    (∀ ed, field (setMode "drag" ed) = field ed) →
    field (editOnDragOver setMode editor e).1 = field editor.
Proof.
  unfold editOnDragOver, preventDefault. simpl.
  repeat (split; [done|]). intros A field Hfield. apply Hfield.
Qed.

End Facts.

Lemma C7_witness :
  Demo.mode (editOnDragOver Demo.setMode (Demo.mkEditor "edit" true) (mkEvent false tt)).1
    = "drag" ∧
  Demo._internalDrag
    (editOnDragOver Demo.setMode (Demo.mkEditor "edit" true) (mkEvent false tt)).1
    = true.
Proof.
  pose proof (C7_editOnDragOver Demo.setMode (Demo.mkEditor "edit" true) (mkEvent false tt))
    as (Hmode & _ & _ & Hframe).
  split.
  - by rewrite Hmode.
  - apply (Hframe bool Demo._internalDrag). by intros [].
Defined.

End EditOnDragOverFacts.

(* ===================================================================== *)
(** ** Facts: DraftEditorBlock *)
(* ===================================================================== *)

Module DraftEditorBlockFacts.
Import DraftEditorBlock.

Section Facts.

Context `{Collaborators}.

Lemma isBlockOnSelectionEdge_true (sel : SelectionState) k :
  isBlockOnSelectionEdge sel k = true ↔ getAnchorKey sel = k ∨ getFocusKey sel = k.
Proof.
  unfold isBlockOnSelectionEdge.
  rewrite orb_true_iff, !bool_decide_eq_true. done.
Qed.

Lemma shouldComponentUpdate_true (p n : Props) :
  shouldComponentUpdate p n = true ↔
  block p ≠ block n ∨ tree p ≠ tree n ∨ direction p ≠ direction n ∨
  ((getAnchorKey (selection n) = getKey (block n) ∨
    getFocusKey (selection n) = getKey (block n)) ∧
   forceSelection n = true).
Proof.
  unfold shouldComponentUpdate.
  rewrite !orb_true_iff, andb_true_iff, !negb_true_iff, !bool_decide_eq_false.
  rewrite isBlockOnSelectionEdge_true. tauto.
Qed.

(** C8.  [shouldComponentUpdate] is true exactly when the block, the tree
    or the direction of the next props differs from the current one, or the
    next selection has its anchor or its focus on the block and the next
    [forceSelection] is true.  The key of "the block" may be read off the next
    props, as the code does, or off the current ones: it makes no
    difference.  So with the same block, tree and direction and
    [forceSelection] false the result is false. *)
Theorem C8_shouldComponentUpdate (p n : Props) :
  (shouldComponentUpdate p n = true ↔
   block p ≠ block n ∨ tree p ≠ tree n ∨ direction p ≠ direction n ∨
   ((getAnchorKey (selection n) = getKey (block n) ∨
     getFocusKey (selection n) = getKey (block n)) ∧
    forceSelection n = true)) ∧
  (shouldComponentUpdate p n = true ↔
   block p ≠ block n ∨ tree p ≠ tree n ∨ direction p ≠ direction n ∨
   ((getAnchorKey (selection n) = getKey (block p) ∨
     getFocusKey (selection n) = getKey (block p)) ∧
    forceSelection n = true)) ∧
  (block p = block n → tree p = tree n → direction p = direction n →
   forceSelection n = false → shouldComponentUpdate p n = false).
Proof.
  split; [apply shouldComponentUpdate_true|]. split.
  - rewrite shouldComponentUpdate_true.
    destruct (decide (block p = block n)) as [->|Hne]; tauto.
  - intros Hb Ht Hd Hf. apply not_true_is_false.
    rewrite shouldComponentUpdate_true, Hf. 
    intros [?|[?|[?|[_ ?]]]]; done.
Qed.

(** *** componentDidMount *)

Lemma correctScrollTop_cases (m : Measures) :
  let above := (visTop m > blockTop m)%Z in
  let big_below := (blockHeight m >= visHeight m ∧ blockTop m > visBottom m)%Z in
  let small_past := (blockHeight m < visHeight m ∧ blockBottom m > visBottom m)%Z in
  (above ∨ big_below →
   correctScrollTop m =
     Some (scroll_y (scrollPosition m) - SCROLL_BUFFER - (visTop m - blockTop m))%Z) ∧
  (¬ (above ∨ big_below) → small_past →
   correctScrollTop m =
     Some (scroll_y (scrollPosition m) + SCROLL_BUFFER - (visBottom m - blockBottom m))%Z) ∧
  (is_Some (correctScrollTop m) ↔ above ∨ big_below ∨ small_past).
Proof.
  unfold correctScrollTop. simpl.
  destruct (Z.gtb_spec (visTop m) (blockTop m));
  destruct (Z.geb_spec (blockHeight m) (visHeight m));
  destruct (Z.gtb_spec (blockTop m) (visBottom m));
  destruct (Z.gtb_spec (blockBottom m) (visBottom m));
  simpl; repeat split; intros; try done; try (exfalso; lia);
  try (by eexists); try lia;
  match goal with Hs : is_Some None |- _ => by destruct Hs end.
Qed.

(** C10.  [componentDidMount] makes no scroll call unless the selection has
    focus and ends in this block.  When it does, it makes a scroll call
    exactly when the block's top is above the visible top, or the block is at
    least as high as the visible area and starts below the visible bottom, or
    the block is smaller and its bottom is past the visible bottom.  In the
    first two cases the new scroll top is the current one minus
    [SCROLL_BUFFER] minus the distance from block top to visible top, in the
    third the current one plus [SCROLL_BUFFER] minus the distance from block
    bottom to visible bottom; [SCROLL_BUFFER] is 10. *)
Theorem C10_componentDidMount (p : Props) (node : Node) :
  let m := measure p node in
  let above := (visTop m > blockTop m)%Z in
  let big_below := (blockHeight m >= visHeight m ∧ blockTop m > visBottom m)%Z in
  let small_past := (blockHeight m < visHeight m ∧ blockBottom m > visBottom m)%Z in
  SCROLL_BUFFER = 10%Z ∧
  (getHasFocus (selection p) = false ∨ getEndKey (selection p) ≠ getKey (block p) →
   componentDidMount p node = None) ∧
  (getHasFocus (selection p) = true → getEndKey (selection p) = getKey (block p) →
   (is_Some (componentDidMount p node) ↔ above ∨ big_below ∨ small_past) ∧
   (above ∨ big_below →
    call_top <$> componentDidMount p node =
      Some (scroll_y (scrollPosition m) - 10 - (visTop m - blockTop m))%Z) ∧
   (¬ (above ∨ big_below) → small_past →
    call_top <$> componentDidMount p node =
      Some (scroll_y (scrollPosition m) + 10 - (visBottom m - blockBottom m))%Z)).
Proof.
  intros m above big_below small_past.
  split; [done|]. split.
  - intros Hguard. unfold componentDidMount.
    destruct Hguard as [-> | Hne]; [done|].
    rewrite (bool_decide_eq_false_2 _ Hne). by rewrite orb_true_r.
  - intros Hfocus Hend. unfold componentDidMount.
    rewrite Hfocus, (bool_decide_eq_true_2 _ Hend). cbn [negb orb]. fold m.
    destruct (correctScrollTop_cases m) as (H1 & H2 & H3).
    fold above big_below small_past in H1, H2, H3.
    change SCROLL_BUFFER with 10%Z in H1, H2.
    split; [|split].
    + rewrite <- H3. destruct (correctScrollTop m) as [top|].
      * destruct (isScrParentWindow m); split; intros _; by eexists.
      * done.
    + intros Hab. rewrite (H1 Hab). by destruct (isScrParentWindow m).
    + intros Hnab Hsp. rewrite (H2 Hnab Hsp). by destruct (isScrParentWindow m).
Qed.


(** *** _renderChildren *)

Lemma renderLeaf_texts (p : Props) a b ii (lvs : list Leaf) :
  Forall2 (λ leaf el,
             le_text el = slice (getText (block p)) (leaf_start leaf) (leaf_end leaf))
          lvs (imap (renderLeaf p a b ii) lvs).
Proof.
  apply Forall2_same_length_lookup_2; [by rewrite length_imap|].
  intros jj leaf el Hleaf. rewrite list_lookup_imap, Hleaf. by intros [= <-].
Qed.

Lemma renderLeafSet_child_leaves (p : Props) lastLeafSet ii leafSet child :
  renderLeafSet p lastLeafSet ii leafSet = Some child →
  child_leaves child =
    imap (renderLeaf p lastLeafSet (Z.of_nat (length (leaves leafSet)) - 1) ii)
         (leaves leafSet).
Proof.
  unfold renderLeafSet.
  destruct (decoratorKey leafSet) as [k|]; [|by intros [= <-]].
  destruct (decorator p) as [dec|]; [|by intros [= <-]].
  destruct (getComponentForKey dec k) as [C|]; [|by intros [= <-]].
  destruct (head (leaves leafSet)); [|done].
  destruct (last (leaves leafSet)); [|done].
  by intros [= <-].
Qed.

Lemma renderLeafSet_decorated (p : Props) lastLeafSet ii leafSet d :
  renderLeafSet p lastLeafSet ii leafSet = Some (Decorated d) →
  ∃ k dec first_leaf last_leaf,
    decoratorKey leafSet = Some k ∧
    decorator p = Some dec ∧
    getComponentForKey dec k = Some (de_component d) ∧
    head (leaves leafSet) = Some first_leaf ∧
    last (leaves leafSet) = Some last_leaf ∧
    de_decoratedText d =
      slice (getText (block p)) (leaf_start first_leaf) (leaf_end last_leaf).
Proof.
  unfold renderLeafSet.
  destruct (decoratorKey leafSet) as [k|]; [|done].
  destruct (decorator p) as [dec|]; [|done].
  destruct (getComponentForKey dec k) as [C|] eqn:HC; [|done].
  destruct (head (leaves leafSet)) as [fl|]; [|done].
  destruct (last (leaves leafSet)) as [ll|]; [|done].
  intros [= <-]. simpl. by exists k, dec, fl, ll.
Qed.

Lemma renderLeafSet_bare (p : Props) lastLeafSet ii leafSet child :
  renderLeafSet p lastLeafSet ii leafSet = Some child →
  decoratorKey leafSet = None ∨ decorator p = None ∨
  (∃ k dec, decoratorKey leafSet = Some k ∧ decorator p = Some dec ∧
            getComponentForKey dec k = None) →
  child = BareLeaves (child_leaves child).
Proof.
  unfold renderLeafSet.
  intros Hr [Hk | [Hd | (k & dec & Hk & Hd & HC)]]; revert Hr.
  - rewrite Hk. by intros [= <-].
  - rewrite Hd. destruct (decoratorKey leafSet); by intros [= <-].
  - rewrite Hk, Hd, HC. by intros [= <-].
Qed.

Lemma renderLeafSet_is_Some (p : Props) lastLeafSet ii leafSet :
  leaves leafSet ≠ [] → is_Some (renderLeafSet p lastLeafSet ii leafSet).
Proof.
  intros Hne. unfold renderLeafSet.
  destruct (decoratorKey leafSet) as [k|]; [|by eexists].
  destruct (decorator p) as [dec|]; [|by eexists].
  destruct (getComponentForKey dec k) as [C|]; [|by eexists].
  destruct (leaves leafSet) as [|l ls] using rev_ind; [done|].
  rewrite last_snoc. destruct ls; by eexists.
Qed.

Lemma renderLeafSet_wrapped (p : Props) lastLeafSet ii leafSet child k dec C :
  renderLeafSet p lastLeafSet ii leafSet = Some child →
  decoratorKey leafSet = Some k → decorator p = Some dec →
  getComponentForKey dec k = Some C →
  ∃ d, child = Decorated d ∧ de_component d = C ∧
       de_decoratorProps d = getPropsForKey dec k.
Proof.
  unfold renderLeafSet. intros Hr Hk Hd HC. revert Hr.
  rewrite Hk, Hd, HC.
  destruct (head (leaves leafSet)); [|done].
  destruct (last (leaves leafSet)); [|done].
  intros [= <-]. by eexists.
Qed.

(** C9.  When [_renderChildren] returns, it returns one child per leaf set
    of the tree, in order.  The leaf elements of a child are one per leaf of
    the leaf set, and the text of each is the block text sliced from the
    leaf's start to its end.  A child is a decorator element only when the
    leaf set has a decorator key, the [decorator] prop is set and the
    decorator has a component for the key (that component is the one used),
    and then [decoratedText] is the block text sliced from the first leaf's
    start to the last leaf's end.  When the three hold the child is a
    decorator element, of that component and with the decorator's props for
    the key, around the leaf elements.  If one of the three fails the child is
    the bare list of leaf elements.  The method returns whenever no leaf set
    is without leaves. *)
Theorem C9_renderChildren (p : Props) :
  (∀ cs, _renderChildren p = Some cs →
     Forall2 (λ leafSet child,
       Forall2 (λ leaf el,
                  le_text el =
                    slice (getText (block p)) (leaf_start leaf) (leaf_end leaf))
               (leaves leafSet) (child_leaves child) ∧
       (∀ d, child = Decorated d →
          ∃ k dec first_leaf last_leaf,
            decoratorKey leafSet = Some k ∧
            decorator p = Some dec ∧
            getComponentForKey dec k = Some (de_component d) ∧
            head (leaves leafSet) = Some first_leaf ∧
            last (leaves leafSet) = Some last_leaf ∧
            de_decoratedText d =
              slice (getText (block p)) (leaf_start first_leaf) (leaf_end last_leaf)) ∧
       (∀ k dec C,
          decoratorKey leafSet = Some k → decorator p = Some dec →
          getComponentForKey dec k = Some C →
          ∃ d, child = Decorated d ∧ de_component d = C ∧
               de_decoratorProps d = getPropsForKey dec k) ∧
       (decoratorKey leafSet = None ∨ decorator p = None ∨
        (∃ k dec, decoratorKey leafSet = Some k ∧ decorator p = Some dec ∧
                  getComponentForKey dec k = None) →
        child = BareLeaves (child_leaves child)))
     (leafSets (tree p)) cs) ∧
  (Forall (λ leafSet, leaves leafSet ≠ []) (leafSets (tree p)) →
   is_Some (_renderChildren p)).
Proof.
  unfold _renderChildren. split.
  - intros cs Hcs. apply mapM_Some in Hcs.
    pose proof (Forall2_length _ _ _ Hcs) as Hlen. rewrite length_imap in Hlen.
    apply Forall2_same_length_lookup_2; [done|].
    intros ii leafSet child Hls Hchild.
    assert (renderLeafSet p (Z.of_nat (length (leafSets (tree p))) - 1) ii leafSet
            = Some child) as Hr.
    { eapply (Forall2_lookup_lr _ _ _ ii (ii, leafSet) child) in Hcs; [done| |done].
      by rewrite list_lookup_imap, Hls. }
    split; [|split; [|split]].
    + rewrite (renderLeafSet_child_leaves _ _ _ _ _ Hr). apply renderLeaf_texts.
    + intros d ->. by eapply renderLeafSet_decorated.
    + intros k dec C. by eapply renderLeafSet_wrapped.
    + by eapply renderLeafSet_bare.
  - intros Hall. apply mapM_is_Some. apply Forall_lookup.
    intros ii [ii' leafSet]. rewrite list_lookup_imap.
    destruct (leafSets (tree p) !! ii) as [ls|] eqn:Hls; [|done].
    intros [= <- <-]. simpl. apply renderLeafSet_is_Some.
    by eapply (Forall_lookup_1 _ _ _ _ Hall).
Qed.

End Facts.

Lemma C8_witness :
  shouldComponentUpdate
    (Demo.props 0 0 (Demo.mkSelection "a" "a" true) false)
    (Demo.props 0 0 (Demo.mkSelection "a" "b" true) false) = false.
Proof.
  exact (proj2 (proj2 (C8_shouldComponentUpdate
                         (Demo.props 0 0 (Demo.mkSelection "a" "a" true) false)
                         (Demo.props 0 0 (Demo.mkSelection "a" "b" true) false)))
           eq_refl eq_refl eq_refl eq_refl).
Defined.

Lemma C9_witness :
  is_Some (_renderChildren (Demo.props 0 0 (Demo.mkSelection "a" "a" true) false)) ∧
  ∃ cs c d,
    _renderChildren (Demo.props 0 0 (Demo.mkSelection "a" "a" true) false) = Some cs ∧
    head cs = Some c ∧ c = Decorated d ∧ de_component d = "Link".
Proof.
  destruct (C9_renderChildren (Demo.props 0 0 (Demo.mkSelection "a" "a" true) false))
    as [Hall Hreturns].
  split.
  - apply Hreturns. simpl. repeat constructor; discriminate.
  - destruct (_renderChildren (Demo.props 0 0 (Demo.mkSelection "a" "a" true) false))
      as [cs|] eqn:Hcs; [|vm_compute in Hcs; discriminate Hcs].
    specialize (Hall cs eq_refl). simpl in Hall.
    inversion Hall as [|leafSet c lss cs' (_ & _ & Hwrapped & _) _]; subst.
    destruct (Hwrapped "link" Demo.linkDecorator "Link" eq_refl eq_refl eq_refl)
      as (d & Hd & HC & _).
    by exists (c :: cs'), c, d.
Defined.

Lemma C10_witness :
  call_top <$>
    componentDidMount (Demo.props 1 0 (Demo.mkSelection "a" "b" true) false) 1
  = Some 350%Z.
Proof.
  destruct (C10_componentDidMount
              (Demo.props 1 0 (Demo.mkSelection "a" "b" true) false) 1)
    as (_ & _ & Hrun).
  destruct (Hrun eq_refl eq_refl) as (_ & _ & Hsmall).
  apply Hsmall.
  - vm_compute. intros [Ha | [Hb _]]; [discriminate | by apply Hb].
  - vm_compute. split; reflexivity.
Defined.

End DraftEditorBlockFacts.

(* ===================================================================== *)
(** ** More facts: processText *)
(* ===================================================================== *)

Module PasteMore.
Import DraftPasteProcessor PasteFacts.

Section Facts.

Context {CharacterMetadata KeyGen : Type}.
Variable generateRandomKey : KeyGen -> string * KeyGen.
Variable sanitizeDraftText : string -> string.
Variable experimentalTreeDataSupport : bool.

Abbreviation callback := (@callback CharacterMetadata KeyGen generateRandomKey sanitizeDraftText experimentalTreeDataSupport).
Abbreviation processText := (@processText CharacterMetadata KeyGen generateRandomKey sanitizeDraftText experimentalTreeDataSupport).
Abbreviation blocks_step := (@blocks_step CharacterMetadata sanitizeDraftText experimentalTreeDataSupport).
Abbreviation blocks_run := (@blocks_run CharacterMetadata KeyGen generateRandomKey sanitizeDraftText experimentalTreeDataSupport).
Abbreviation processText_result := (@processText_result CharacterMetadata KeyGen generateRandomKey sanitizeDraftText experimentalTreeDataSupport).
Abbreviation draw := (@draw KeyGen generateRandomKey).
Abbreviation after_draws := (@after_draws KeyGen generateRandomKey).
Abbreviation Store := (@Store CharacterMetadata KeyGen).
Abbreviation BlockNodeRecord := (@BlockNodeRecord CharacterMetadata).
Abbreviation run_blocks := (@processText_blocks CharacterMetadata KeyGen generateRandomKey sanitizeDraftText experimentalTreeDataSupport).

Lemma blocks_run_after ty (c : CharacterMetadata) lines g bs :
  (blocks_run ty c lines g bs).2 = after_draws (length lines) g.
Proof.
  revert g bs. induction lines as [|line lines IH]; intros g bs; simpl; [done|].
  destruct (generateRandomKey g) as [k g']. apply IH.
Qed.

(** X1.  One call of [generateRandomKey] per line, in the order of the lines:
    the keys of the returned blocks are the keys drawn, and the generator is
    left in the state it reaches after as many calls as there are lines. *)
Theorem processText_one_key_per_line tb (c : CharacterMetadata) ty h g :
  ∃ acc s' bs,
    processText tb c ty h g = Some (acc, s') ∧
    getBlocks s' acc = Some bs ∧
    key <$> bs = draw (length tb) g ∧
    st_keygen s' = after_draws (length tb) g.
Proof.
  destruct (run_blocks tb c ty h g) as (acc & s' & Hp & _ & _ & Hb & Hg).
  exists acc, s', (blocks_run ty c tb g []).1.
  split; [done|]. split; [done|]. split.
  - by rewrite (blocks_run_key generateRandomKey sanitizeDraftText
                  experimentalTreeDataSupport ty c tb g []).
  - by rewrite Hg, blocks_run_after.
Qed.

(** X2.  When the keys the generator hands out during the call are pairwise
    different, so are the keys of the returned blocks. *)
Theorem processText_keys_NoDup tb (c : CharacterMetadata) ty h g :
  NoDup (draw (length tb) g) →
  ∃ bs, processText_result tb c ty h g = Some bs ∧ NoDup (key <$> bs).
Proof.
  intros Hnd.
  rewrite (processText_result_blocks generateRandomKey sanitizeDraftText
             experimentalTreeDataSupport).
  eexists. split; [done|].
  by rewrite (blocks_run_key generateRandomKey sanitizeDraftText
                experimentalTreeDataSupport ty c tb g []).
Qed.

(** *** Without tree data support *)

Lemma blocks_run_flat ty (c : CharacterMetadata) lines g bs :
  experimentalTreeDataSupport = false →
  (blocks_run ty c lines g bs).1 = bs ++ (blocks_run ty c lines g []).1.
Proof.
  intros Hflat. revert g bs.
  induction lines as [|line lines IH]; intros g bs; simpl.
  - by rewrite app_nil_r.
  - destruct (generateRandomKey g) as [k g'].
    rewrite IH. rewrite (IH g' (blocks_step ty c [] line k)).
    unfold DraftPasteProcessor.blocks_step. rewrite Hflat. simpl.
    by rewrite <- app_assoc.
Qed.

Lemma blocks_run_flat_siblings ty (c : CharacterMetadata) lines g bs :
  experimentalTreeDataSupport = false →
  Forall (λ b, prevSibling b = None ∧ nextSibling b = None) bs →
  Forall (λ b, prevSibling b = None ∧ nextSibling b = None)
         (blocks_run ty c lines g bs).1.
Proof.
  intros Hflat. revert g bs.
  induction lines as [|line lines IH]; intros g bs Hbs; simpl; [done|].
  destruct (generateRandomKey g) as [k g']. apply IH.
  unfold DraftPasteProcessor.blocks_step. rewrite Hflat. simpl.
  apply Forall_app. split; [done|]. by repeat constructor.
Qed.

(** X3.  Without tree data support no returned block has a sibling link. *)
Theorem processText_flat_no_siblings tb (c : CharacterMetadata) ty h g :
  experimentalTreeDataSupport = false →
  ∃ bs, processText_result tb c ty h g = Some bs ∧
        length bs = length tb ∧
        Forall (λ b, prevSibling b = None ∧ nextSibling b = None) bs.
Proof.
  intros Hflat.
  rewrite (processText_result_blocks generateRandomKey sanitizeDraftText
             experimentalTreeDataSupport).
  eexists. split; [done|]. split.
  - by rewrite (blocks_run_length generateRandomKey sanitizeDraftText
                  experimentalTreeDataSupport).
  - by apply blocks_run_flat_siblings.
Qed.

(** X4.  Pasting two lists of lines one after the other.  The array for
    [tb1 ++ tb2] has the texts, types, character lists and keys of the array
    for [tb1] followed by those of the array for [tb2], when the second call
    is made where the first one leaves the key generator; without tree data
    support the arrays themselves are equal. *)
Theorem processText_app tb1 tb2 (c : CharacterMetadata) ty h g :
  ∃ acc1 s1 bs1 bs2 bs,
    processText tb1 c ty h g = Some (acc1, s1) ∧
    getBlocks s1 acc1 = Some bs1 ∧
    processText_result tb2 c ty (st_records s1) (st_keygen s1) = Some bs2 ∧
    processText_result (tb1 ++ tb2) c ty h g = Some bs ∧
    key <$> bs = key <$> (bs1 ++ bs2) ∧
    text <$> bs = text <$> (bs1 ++ bs2) ∧
    type <$> bs = type <$> (bs1 ++ bs2) ∧
    characterList <$> bs = characterList <$> (bs1 ++ bs2) ∧
    (experimentalTreeDataSupport = false → bs = bs1 ++ bs2).
Proof.
  destruct (run_blocks tb1 c ty h g) as (acc1 & s1 & Hp & _ & _ & Hb & Hg).
  eexists acc1, s1, _, _, _. split; [exact Hp|]. split; [exact Hb|].
  rewrite !(processText_result_blocks generateRandomKey sanitizeDraftText
              experimentalTreeDataSupport).
  split; [reflexivity|]. split; [reflexivity|].
  rewrite Hg. rewrite !fmap_app.
  rewrite !(blocks_run_key generateRandomKey sanitizeDraftText
              experimentalTreeDataSupport).
  rewrite !(blocks_run_fmap generateRandomKey sanitizeDraftText
              experimentalTreeDataSupport text sanitizeDraftText) by done.
  rewrite !(blocks_run_fmap generateRandomKey sanitizeDraftText
              experimentalTreeDataSupport type (λ _, ty)) by done.
  rewrite !(blocks_run_fmap generateRandomKey sanitizeDraftText
              experimentalTreeDataSupport characterList
              (λ l, replicate (String.length (sanitizeDraftText l)) c)) by done.
  simpl. rewrite !fmap_app, length_app.
  rewrite (draw_after_run generateRandomKey sanitizeDraftText
             experimentalTreeDataSupport ty c tb1 g []).
  repeat (split; [done|]).
  intros Hflat.
  rewrite (blocks_run_app generateRandomKey sanitizeDraftText
             experimentalTreeDataSupport).
  by apply blocks_run_flat.
Qed.


(** *** Addresses and allocation *)

Lemma callback_unlinked ty acc line index (s : Store) :
  experimentalTreeDataSupport && negb (index =? 0) = false →
  ∃ s' n,
    callback ty acc line index s = Some (acc ++ [length (st_records s)], s') ∧
    st_records s' = st_records s ++ [n].
Proof.
  intros Hoff.
  unfold DraftPasteProcessor.callback, bind, freshKey, readCharacter.
  destruct (generateRandomKey (st_keygen s)) as [k g].
  rewrite Hoff. unfold ret, alloc. simpl. by eexists _, _.
Qed.

Abbreviation shaped := (@shaped CharacterMetadata experimentalTreeDataSupport).

Lemma shaped_push h k acc n :
  (experimentalTreeDataSupport = true → k = 0) →
  shaped h k acc n → shaped h (S k) (acc ++ [n]) (S n).
Proof.
  intros Hk (Hlen & Hn & Hin & Hlt). unfold addr in *.
  split; [|split; [|split]].
  - rewrite length_app. simpl. lia.
  - destruct experimentalTreeDataSupport.
    + assert (k = 0) as -> by auto. simpl in *. lia.
    + lia.
  - intros i a. rewrite lookup_app_Some. intros [Ha | [_ Ha]].
    + apply Hin in Ha. lia.
    + apply list_lookup_singleton_Some in Ha as [_ <-]. lia.
  - intros i j a b Hij. rewrite !lookup_app_Some.
    intros [Ha | [Hi Ha]] [Hb | [Hj Hb]].
    + by eapply Hlt.
    + apply list_lookup_singleton_Some in Hb as [_ <-]. apply Hin in Ha. lia.
    + apply lookup_lt_Some in Hb. lia.
    + apply list_lookup_singleton_Some in Ha as [? _].
      apply list_lookup_singleton_Some in Hb as [? _]. lia.
Qed.

Lemma shaped_relink_push h k acc n :
  experimentalTreeDataSupport = true → k ≠ 0 →
  shaped h k acc n →
  shaped h (S k) (<[k - 1 := n]> acc ++ [S n]) (S (S n)).
Proof.
  intros Htree Hk (Hlen & Hn & Hin & Hlt). rewrite Htree in Hn.
  unfold addr in *.
  assert (∀ i a, <[k - 1 := n]> acc !! i = Some a →
            (i = k - 1 ∧ a = n) ∨ (i ≠ k - 1 ∧ acc !! i = Some a)) as Hins.
  { intros i a Ha. destruct (decide (i = k - 1)) as [->|Hne].
    - rewrite list_lookup_insert_eq in Ha by lia. injection Ha as <-. by left.
    - rewrite list_lookup_insert_ne in Ha by done. by right. }
  split; [|split; [|split]].
  - rewrite length_app, length_insert. simpl. lia.
  - rewrite Htree. destruct k; simpl in *; lia.
  - intros i a. rewrite lookup_app_Some. intros [Ha | [_ Ha]].
    + apply Hins in Ha as [[_ ->] | [_ Ha]]; [lia|]. apply Hin in Ha. lia.
    + apply list_lookup_singleton_Some in Ha as [_ <-]. lia.
  - intros i j a b Hij. rewrite !lookup_app_Some, !length_insert.
    intros [Ha | [Hi Ha]] [Hb | [Hj Hb]].
    + apply Hins in Ha as [[-> ->] | [Hi Ha]];
        apply Hins in Hb as [[-> ->] | [Hj Hb]].
      * lia.
      * apply lookup_lt_Some in Hb. lia.
      * apply Hin in Ha. lia.
      * by eapply Hlt.
    + apply list_lookup_singleton_Some in Hb as [_ <-].
      apply Hins in Ha as [[_ ->] | [_ Ha]]; [lia|]. apply Hin in Ha. lia.
    + apply lookup_lt_Some in Hb. rewrite length_insert in Hb. lia.
    + apply list_lookup_singleton_Some in Ha as [? _].
      apply list_lookup_singleton_Some in Hb as [? _]. lia.
Qed.

Lemma callback_shaped ty h acc line (s : Store) :
  (experimentalTreeDataSupport = true → relinked acc s) →
  shaped h (length acc) acc (length (st_records s)) →
  ∃ acc' s',
    callback ty acc line (length acc) s = Some (acc', s') ∧
    (experimentalTreeDataSupport = true → relinked acc' s') ∧
    shaped h (S (length acc)) acc' (length (st_records s')).
Proof.
  intros Hrel Hsh.
  destruct (experimentalTreeDataSupport && negb (length acc =? 0)) eqn:Hlinked.
  - apply andb_true_iff in Hlinked as [Htree Hnz].
    apply negb_true_iff, Nat.eqb_neq in Hnz.
    destruct (Hrel Htree) as [Hlast _].
    destruct (lookup_lt_is_Some_2 acc (length acc - 1)) as [a Ha]; [lia|].
    destruct (Hlast a) as (r & Hr & Hn).
    { rewrite last_lookup. by replace (pred (length acc)) with (length acc - 1) by lia. }
    destruct (callback_linked generateRandomKey sanitizeDraftText
                experimentalTreeDataSupport ty acc line s a r)
      as (s' & n & Hc & Hrec & _); [done..|].
    destruct (callback_relinked generateRandomKey sanitizeDraftText
                experimentalTreeDataSupport ty acc line s Htree (Hrel Htree))
      as (acc2 & s2 & Hc2 & _ & Hrel2).
    rewrite Hc in Hc2. injection Hc2 as <- <-.
    eexists _, s'. split; [exact Hc|]. split; [done|].
    rewrite Hrec, length_app. simpl.
    replace (length (st_records s) + 2) with (S (S (length (st_records s)))) by lia.
    by apply shaped_relink_push.
  - destruct (callback_unlinked ty acc line (length acc) s Hlinked)
      as (s' & n & Hc & Hrec).
    eexists _, s'. split; [exact Hc|]. split.
    + intros Htree.
      destruct (callback_relinked generateRandomKey sanitizeDraftText
                  experimentalTreeDataSupport ty acc line s Htree (Hrel Htree))
        as (acc2 & s2 & Hc2 & _ & Hrel2).
      rewrite Hc in Hc2. by injection Hc2 as <- <-.
    + rewrite Hrec, length_app. simpl.
      replace (length (st_records s) + 1) with (S (length (st_records s))) by lia.
      apply shaped_push; [|done].
      intros Htree. rewrite Htree in Hlinked. simpl in Hlinked.
      by apply negb_false_iff, Nat.eqb_eq in Hlinked.
Qed.

Lemma processText_shaped tb (c : CharacterMetadata) ty h g :
  ∃ acc s',
    processText tb c ty h g = Some (acc, s') ∧
    shaped h (length tb) acc (length (st_records s')).
Proof.
  set (s0 := mkStore tb c h g).
  pose (I := λ (k : nat) (acc : list addr) (s : Store),
    st_textBlocks s = tb ∧
    (experimentalTreeDataSupport = true → relinked acc s) ∧
    shaped h k acc (length (st_records s))).
  destruct (reduce_inv (length tb) I (callback ty)) with
    (n := length tb) (k := 0) (acc := @nil addr) (s := s0)
    as (acc & s' & Hr & _ & _ & Hsh).
  - intros k acc s Hk (Htb & Hrel & Hsh).
    destruct (lookup_lt_is_Some_2 tb k Hk) as [line Hline].
    assert (length acc = k) as Hlen by apply Hsh. subst k.
    destruct (callback_shaped ty h acc line s Hrel Hsh) as (acc' & s' & Hc & Hrel' & Hsh').
    exists line, acc', s'. rewrite Htb. split; [done|]. split; [done|].
    apply (callback_frame generateRandomKey sanitizeDraftText
             experimentalTreeDataSupport) in Hc as Hf.
    split; [by rewrite (proj1 Hf)|]. by split.
  - lia.
  - split; [done|]. split.
    + intros _. split; [done|]. intros i a Hi. by rewrite lookup_nil in Hi.
    + split; [done|]. split; [destruct experimentalTreeDataSupport; simpl; lia|].
      split; intros *; by rewrite ?lookup_nil.
  - by exists acc, s'.
Qed.

(** X5.  [processText] allocates one record per line and, with tree data
    support, one more per line after the first (the relinked copy of the
    block before it); nothing is allocated for an empty array. *)
Theorem processText_allocation tb (c : CharacterMetadata) ty h g :
  ∃ acc s',
    processText tb c ty h g = Some (acc, s') ∧
    length (st_records s') =
      length h + length tb +
      (if experimentalTreeDataSupport then pred (length tb) else 0).
Proof.
  destruct (processText_shaped tb c ty h g) as (acc & s' & Hp & _ & Hn & _).
  by exists acc, s'.
Qed.

(** X6.  Every element of the returned array is a record allocated during the
    call, never one that was in the store before it; the elements are at
    increasing addresses, so no record is returned twice. *)
Theorem processText_fresh_records tb (c : CharacterMetadata) ty h g :
  ∃ acc s',
    processText tb c ty h g = Some (acc, s') ∧
    length acc = length tb ∧
    Forall (λ a, length h ≤ a < length (st_records s')) acc ∧
    (∀ i j a b, i < j → acc !! i = Some a → acc !! j = Some b → a < b) ∧
    NoDup acc.
Proof.
  destruct (processText_shaped tb c ty h g) as (acc & s' & Hp & Hlen & _ & Hin & Hlt).
  exists acc, s'. split; [done|]. split; [done|]. split; [|split; [done|]].
  - apply Forall_lookup. intros i a. apply Hin.
  - apply NoDup_alt. intros i j a Hi Hj.
    destruct (Nat.lt_trichotomy i j) as [Hij | [-> | Hji]]; [|done|].
    + pose proof (Hlt i j a a Hij Hi Hj). lia.
    + pose proof (Hlt j i a a Hji Hj Hi). lia.
Qed.

(** *** The callback on an accumulator that is too short *)

(** X7.  With tree data support the callback at an index other than 0 reads
    [acc[index - 1]]: when the accumulator has no element there, it throws and
    builds nothing.  Otherwise (no tree data support, or index 0) it never
    reads the accumulator and returns whatever the accumulator is. *)
Theorem callback_missing_previous ty acc line index (s : Store) :
  (experimentalTreeDataSupport = true → index ≠ 0 → length acc < index →
   callback ty acc line index s = None) ∧
  (experimentalTreeDataSupport = false ∨ index = 0 →
   ∃ s', callback ty acc line index s = Some (acc ++ [length (st_records s)], s')).
Proof.
  split.
  - intros Htree Hnz Hshort.
    unfold DraftPasteProcessor.callback, bind, freshKey, readCharacter.
    destruct (generateRandomKey (st_keygen s)) as [k g].
    rewrite Htree. apply Nat.eqb_neq in Hnz. rewrite Hnz. simpl.
    rewrite (lookup_ge_None_2 acc (index - 1)) by lia. done.
  - intros Hoff.
    destruct (callback_unlinked ty acc line index s) as (s' & n & Hc & _).
    + destruct Hoff as [-> | ->]; [done|]. by rewrite andb_false_r.
    + by exists s'.
Qed.

End Facts.

Lemma processText_keys_NoDup_witness :
  ∃ bs,
    processText_result Demo.counterKey Demo.dropCR true ["ab"; "c"; "xyz"]
      7 "unstyled" [] 0 = Some bs ∧
    NoDup (key <$> bs).
Proof.
  apply (processText_keys_NoDup Demo.counterKey Demo.dropCR true
           ["ab"; "c"; "xyz"] 7 "unstyled" [] 0).
  apply (bool_decide_unpack (NoDup _)). vm_compute. exact I.
Defined.

Lemma processText_flat_no_siblings_witness :
  ∃ bs,
    processText_result Demo.counterKey Demo.dropCR false ["ab"; "c"; "xyz"]
      7 "unstyled" [] 0 = Some bs ∧
    length bs = 3 ∧
    Forall (λ b, prevSibling b = None ∧ nextSibling b = None) bs.
Proof.
  exact (processText_flat_no_siblings Demo.counterKey Demo.dropCR false
           ["ab"; "c"; "xyz"] 7 "unstyled" [] 0 eq_refl).
Defined.

Lemma callback_missing_previous_witness :
  callback Demo.counterKey Demo.dropCR true "unstyled" [0] "b" 2
    (mkStore ["a"; "b"] 7 [mkBlock "a" "unstyled" "a" [7] None None] 1) = None.
Proof.
  apply (proj1 (callback_missing_previous Demo.counterKey Demo.dropCR true
                  "unstyled" [0] "b" 2 _)); [reflexivity | lia | simpl; lia].
Defined.

End PasteMore.

(* ===================================================================== *)
(** ** More facts: DraftEditorBlock *)
(* ===================================================================== *)

Module DraftEditorBlockMore.
Import DraftEditorBlock DraftEditorBlockFacts.

Section Facts.

Context `{Collaborators}.

(** *** componentDidMount *)

Lemma measure_bottoms (p : Props) (node : Node) :
  blockBottom (measure p node) =
    (blockTop (measure p node) + blockHeight (measure p node))%Z ∧
  visBottom (measure p node) =
    (visTop (measure p node) + visHeight (measure p node))%Z.
Proof. done. Qed.

Lemma componentDidMount_Some (p : Props) (node : Node) call :
  componentDidMount p node = Some call →
  getHasFocus (selection p) = true ∧
  getEndKey (selection p) = getKey (block p) ∧
  correctScrollTop (measure p node) = Some (call_top call).
Proof.
  unfold componentDidMount.
  destruct (getHasFocus (selection p)); [|done].
  destruct (bool_decide_reflect (getEndKey (selection p) = getKey (block p)));
    [|done].
  cbn [negb orb].
  destruct (correctScrollTop (measure p node)) as [top|]; [|done].
  destruct (isScrParentWindow (measure p node)); by intros [= <-].
Qed.

(** X8.  A block that lies within the visible area (its top not above the
    visible top, its bottom not below the visible bottom) is left where it
    is: no scroll call is made. *)
Theorem componentDidMount_visible_block (p : Props) (node : Node) :
  (0 ≤ blockHeight (measure p node))%Z →
  (visTop (measure p node) ≤ blockTop (measure p node))%Z →
  (blockBottom (measure p node) ≤ visBottom (measure p node))%Z →
  componentDidMount p node = None.
Proof.
  intros Hh Htop Hbottom.
  destruct (componentDidMount p node) as [call|] eqn:Hc; [|done].
  apply componentDidMount_Some in Hc as (_ & _ & Hc).
  destruct (measure_bottoms p node) as [Hb Hv].
  assert (is_Some (correctScrollTop (measure p node))) as Hs by (by eexists).
  apply (proj2 (proj2 (correctScrollTop_cases _))) in Hs. lia.
Qed.

(** X9.  A block at least as high as the visible area whose top is inside the
    visible area is left where it is, although its bottom is out of view:
    the method only ever brings the top of such a block into view. *)
Theorem componentDidMount_big_block_top_visible (p : Props) (node : Node) :
  (blockHeight (measure p node) >= visHeight (measure p node))%Z →
  (visTop (measure p node) ≤ blockTop (measure p node))%Z →
  (blockTop (measure p node) ≤ visBottom (measure p node))%Z →
  componentDidMount p node = None.
Proof.
  intros Hbig Htop Hin.
  destruct (componentDidMount p node) as [call|] eqn:Hc; [|done].
  apply componentDidMount_Some in Hc as (_ & _ & Hc).
  assert (is_Some (correctScrollTop (measure p node))) as Hs by (by eexists).
  apply (proj2 (proj2 (correctScrollTop_cases _))) in Hs. lia.
Qed.

(** X10.  Where a scroll call leaves the block.  Scrolling by the difference
    between the new and the current scroll top moves the block by as much
    against the visible area.  When the block's top was above the visible
    top, or a block at least as high as the visible area started below it,
    the block's top comes to lie [SCROLL_BUFFER] below the visible top;
    otherwise the block's bottom comes to lie [SCROLL_BUFFER] above the
    visible bottom.  A block above the visible top scrolls the parent up by
    more than [SCROLL_BUFFER], a small block past the bottom scrolls it down
    by more than [SCROLL_BUFFER]. *)
Theorem componentDidMount_placement (p : Props) (node : Node) call :
  componentDidMount p node = Some call →
  let m := measure p node in
  let delta := (call_top call - scroll_y (scrollPosition m))%Z in
  let top_case :=
    (visTop m > blockTop m ∨
     (blockHeight m >= visHeight m ∧ blockTop m > visBottom m))%Z in
  (top_case → (blockTop m - delta = visTop m + SCROLL_BUFFER)%Z) ∧
  (¬ top_case → (blockBottom m - delta = visBottom m - SCROLL_BUFFER)%Z) ∧
  ((visTop m > blockTop m)%Z → (delta < - SCROLL_BUFFER)%Z) ∧
  (¬ top_case → (delta > SCROLL_BUFFER)%Z).
Proof.
  intros Hc m delta top_case.
  apply componentDidMount_Some in Hc as (_ & _ & Hc). fold m in Hc.
  clearbody m.
  destruct (correctScrollTop_cases m) as (H1 & H2 & H3).
  assert (is_Some (correctScrollTop m)) as Hs by (by eexists).
  apply H3 in Hs. unfold delta, top_case, SCROLL_BUFFER in *.
  split; [|split; [|split]].
  - intros Ht. rewrite (H1 Ht) in Hc. injection Hc as <-. lia.
  - intros Hn. rewrite (H2 Hn) in Hc by tauto. injection Hc as <-. lia.
  - intros Ha. rewrite H1 in Hc by tauto. injection Hc as <-. lia.
  - intros Hn. rewrite (H2 Hn) in Hc by tauto. injection Hc as <-.
    assert (blockBottom m > visBottom m)%Z by tauto. lia.
Qed.

(** X11.  Who is scrolled.  When the scroll parent of the block is the window,
    the call is [window.scrollTo] and keeps the horizontal scroll position;
    when it is an element, the call is [Scroll.setTop] on that element. *)
Theorem componentDidMount_target (p : Props) (node : Node) call :
  componentDidMount p node = Some call →
  match getScrollParent node with
  | None =>
      call = window_scrollTo (scroll_x (getScrollPosition None)) (call_top call)
  | Some parent => call = Scroll_setTop parent (call_top call)
  end.
Proof.
  unfold componentDidMount.
  destruct (negb _ || negb _); [done|].
  destruct (correctScrollTop (measure p node)) as [top|]; [|done].
  unfold measure. simpl.
  destruct (getScrollParent node) as [parent|]; simpl; by intros [= <-].
Qed.


(** *** _renderChildren: the element at a position *)

Lemma renderChildren_length (p : Props) cs :
  _renderChildren p = Some cs → length cs = length (leafSets (tree p)).
Proof.
  unfold _renderChildren. intros Hcs. apply mapM_Some in Hcs.
  apply Forall2_length in Hcs. by rewrite length_imap in Hcs.
Qed.

Lemma renderChildren_lookup (p : Props) cs ii c :
  _renderChildren p = Some cs → cs !! ii = Some c →
  ∃ leafSet,
    leafSets (tree p) !! ii = Some leafSet ∧
    renderLeafSet p (Z.of_nat (length cs) - 1) ii leafSet = Some c.
Proof.
  intros Hcs Hc. rewrite (renderChildren_length _ _ Hcs).
  unfold _renderChildren in Hcs. apply mapM_Some in Hcs.
  destruct (Forall2_lookup_r _ _ _ _ _ Hcs Hc) as ([ii' leafSet] & Hl & Hr).
  rewrite list_lookup_imap in Hl.
  destruct (leafSets (tree p) !! ii) as [ls|]; [|done].
  injection Hl as <- <-. by exists ls.
Qed.

Lemma renderChildren_leaf (p : Props) cs ii c jj el :
  _renderChildren p = Some cs → cs !! ii = Some c →
  child_leaves c !! jj = Some el →
  ∃ leafSet leaf,
    leafSets (tree p) !! ii = Some leafSet ∧
    leaves leafSet !! jj = Some leaf ∧
    length (child_leaves c) = length (leaves leafSet) ∧
    el = renderLeaf p (Z.of_nat (length cs) - 1)
           (Z.of_nat (length (child_leaves c)) - 1) ii jj leaf.
Proof.
  intros Hcs Hc Hel.
  destruct (renderChildren_lookup p cs ii c Hcs Hc) as (leafSet & Hls & Hr).
  pose proof (renderLeafSet_child_leaves _ _ _ _ _ Hr) as Hleaves.
  rewrite Hleaves in Hel |- *. rewrite length_imap.
  rewrite list_lookup_imap in Hel.
  destruct (leaves leafSet !! jj) as [leaf|] eqn:Hleaf; simpl in Hel; [|done].
  injection Hel as <-. by exists leafSet, leaf.
Qed.

(** X12.  The leaf element marked [isLast] is the last leaf of the last leaf
    set, and no other. *)
Theorem renderChildren_isLast (p : Props) cs ii c jj el :
  _renderChildren p = Some cs → cs !! ii = Some c →
  child_leaves c !! jj = Some el →
  (le_isLast el = true ↔ S ii = length cs ∧ S jj = length (child_leaves c)).
Proof.
  intros Hcs Hc Hel.
  destruct (renderChildren_leaf p cs ii c jj el Hcs Hc Hel)
    as (leafSet & leaf & _ & _ & _ & ->).
  simpl. rewrite andb_true_iff, !Z.eqb_eq. lia.
Qed.

(** X13.  Two leaf elements of a block at different positions have different
    React keys (and offset keys), provided [DraftOffsetKey.encode] gives
    different strings for different pairs of indices. *)
Theorem renderChildren_keys_distinct (p : Props) cs ii c jj el ii' c' jj' el' :
  (∀ i j i' j',
     encode (getKey (block p)) i j = encode (getKey (block p)) i' j' →
     i = i' ∧ j = j') →
  _renderChildren p = Some cs →
  cs !! ii = Some c → child_leaves c !! jj = Some el →
  cs !! ii' = Some c' → child_leaves c' !! jj' = Some el' →
  le_key el = le_key el' → ii = ii' ∧ jj = jj'.
Proof.
  intros Hinj Hcs Hc Hel Hc' Hel'.
  destruct (renderChildren_leaf p cs ii c jj el Hcs Hc Hel)
    as (? & ? & _ & _ & _ & ->).
  destruct (renderChildren_leaf p cs ii' c' jj' el' Hcs Hc' Hel')
    as (? & ? & _ & _ & _ & ->).
  simpl. apply Hinj.
Qed.

(** X14.  A leaf element is given the selection exactly when the block is at the
    anchor or at the focus of the selection; every other block's leaves get
    [null]. *)
Theorem renderChildren_leaf_selection (p : Props) cs ii c jj el :
  _renderChildren p = Some cs → cs !! ii = Some c →
  child_leaves c !! jj = Some el →
  (getAnchorKey (selection p) = getKey (block p) ∨
   getFocusKey (selection p) = getKey (block p) →
   le_selection el = Some (selection p)) ∧
  (getAnchorKey (selection p) ≠ getKey (block p) →
   getFocusKey (selection p) ≠ getKey (block p) →
   le_selection el = None).
Proof.
  intros Hcs Hc Hel.
  destruct (renderChildren_leaf p cs ii c jj el Hcs Hc Hel)
    as (? & ? & _ & _ & _ & ->).
  simpl. split.
  - intros Hedge. apply isBlockOnSelectionEdge_true in Hedge. by rewrite Hedge.
  - intros Ha Hf.
    destruct (isBlockOnSelectionEdge (selection p) (getKey (block p))) eqn:He;
      [|done].
    apply isBlockOnSelectionEdge_true in He. tauto.
Qed.

(** X15.  A decorator element has at least one leaf, and it carries the offset
    key (and React key) of its first leaf. *)
Theorem renderChildren_decorator_offsetKey (p : Props) cs ii d :
  _renderChildren p = Some cs → cs !! ii = Some (Decorated d) →
  ∃ el, head (de_children d) = Some el ∧
        de_offsetKey d = le_offsetKey el ∧ de_key d = le_key el.
Proof.
  intros Hcs Hc.
  destruct (renderChildren_lookup p cs ii _ Hcs Hc) as (leafSet & _ & Hr).
  revert Hr. unfold renderLeafSet.
  destruct (decoratorKey leafSet) as [k|]; [|done].
  destruct (decorator p) as [dec|]; [|done].
  destruct (getComponentForKey dec k) as [C|]; [|done].
  destruct (leaves leafSet) as [|leaf lvs]; [done|].
  destruct (last (leaf :: lvs)); [|done].
  intros [= <-]. simpl. by eexists.
Qed.

(** *** _renderChildren: when it throws *)

Lemma renderLeafSet_None (p : Props) lastLeafSet ii leafSet :
  renderLeafSet p lastLeafSet ii leafSet = None ↔
  leaves leafSet = [] ∧
  ∃ k dec C, decoratorKey leafSet = Some k ∧ decorator p = Some dec ∧
             getComponentForKey dec k = Some C.
Proof.
  unfold renderLeafSet.
  destruct (decoratorKey leafSet) as [k|];
    [|split; [done | by intros (_ & ? & ? & ? & ? & _)]].
  destruct (decorator p) as [dec|];
    [|split; [done | by intros (_ & ? & ? & ? & _ & ? & _)]].
  destruct (getComponentForKey dec k) as [C|] eqn:HC.
  - destruct (leaves leafSet) as [|leaf lvs _] using rev_ind.
    + split; [|done]. intros _. split; [done|]. by exists k, dec, C.
    + rewrite last_snoc. split.
      * by destruct lvs.
      * intros [Hnil _]. by destruct lvs.
  - split; [done|]. intros (_ & ? & ? & ? & [= <-] & [= <-] & ?). congruence.
Qed.

(** X16.  [_renderChildren] throws exactly when the tree has a leaf set without
    leaves for which the decorator has a component; in every other case it
    returns. *)
Theorem renderChildren_throws (p : Props) :
  _renderChildren p = None ↔
  Exists (λ leafSet,
            leaves leafSet = [] ∧
            ∃ k dec C, decoratorKey leafSet = Some k ∧ decorator p = Some dec ∧
                       getComponentForKey dec k = Some C)
         (leafSets (tree p)).
Proof.
  unfold _renderChildren.
  set (L := (Z.of_nat (length (leafSets (tree p))) - 1)%Z).
  rewrite eq_None_not_Some, mapM_is_Some.
  rewrite Exists_exists. split.
  - intros Hnot. apply not_Forall_Exists in Hnot; [|apply _].
    apply Exists_exists in Hnot as ([ii leafSet] & Hin & Hnone).
    apply list_elem_of_lookup in Hin as [i Hi].
    rewrite list_lookup_imap in Hi.
    destruct (leafSets (tree p) !! i) as [ls|] eqn:Hls; [|done].
    injection Hi as <- <-. exists ls. split.
    + apply list_elem_of_lookup. by exists i.
    + apply (renderLeafSet_None p L i ls).
      simpl in Hnone. by apply eq_None_not_Some.
  - intros (leafSet & Hin & Hbad) Hall.
    apply list_elem_of_lookup in Hin as [i Hi].
    assert (imap pair (leafSets (tree p)) !! i = Some (i, leafSet)) as Hi'
      by (by rewrite list_lookup_imap, Hi).
    pose proof (Forall_lookup_1 _ _ _ _ Hall Hi') as [c Hc]. simpl in Hc.
    apply (renderLeafSet_None p L i leafSet) in Hbad. congruence.
Qed.

(** X17.  Without a [decorator] prop [_renderChildren] always returns, and
    every child is a bare list of leaves. *)
Theorem renderChildren_no_decorator (p : Props) :
  decorator p = None →
  ∃ cs, _renderChildren p = Some cs ∧
        length cs = length (leafSets (tree p)) ∧
        Forall (λ c, c = BareLeaves (child_leaves c)) cs.
Proof.
  intros Hnone.
  destruct (_renderChildren p) as [cs|] eqn:Hcs.
  - exists cs. split; [done|]. split; [by apply renderChildren_length|].
    apply Forall_lookup. intros ii c Hc.
    destruct (renderChildren_lookup p cs ii c Hcs Hc) as (leafSet & _ & Hr).
    eapply renderLeafSet_bare; [exact Hr|]. by right; left.
  - apply renderChildren_throws, Exists_exists in Hcs
      as (? & _ & _ & ? & ? & ? & _ & Hd & _).
    congruence.
Qed.


(** *** _renderChildren: decorated text and leaf texts *)

Lemma substring_app (s : string) n m k :
  String.append (String.substring n m s) (String.substring (n + m) k s) =
  String.substring n (m + k) s.
Proof.
  revert n m. induction s as [|ch s IH]; intros n m.
  - destruct n, m, k; done.
  - destruct n as [|n]; simpl.
    + destruct m as [|m]; simpl; [done|]. by rewrite <- (IH 0 m).
    + apply IH.
Qed.

Lemma append_empty_r (s : string) : String.append s EmptyString = s.
Proof.
  induction s as [|ch s IH]; [done|].
  change (String ch (String.append s EmptyString) = String ch s). by rewrite IH.
Qed.

Lemma slice_app (s : string) (a b c : Z) :
  (0 ≤ a ≤ b)%Z → (b ≤ c)%Z →
  String.append (slice s a b) (slice s b c) = slice s a c.
Proof.
  intros Hab Hbc. unfold slice.
  rewrite !(proj2 (Z.ltb_ge _ 0)) by lia.
  set (len := Z.of_nat (String.length s)).
  pose proof (substring_app s (Z.to_nat (Z.min a len))
                (Z.to_nat (Z.min b len - Z.min a len))
                (Z.to_nat (Z.min c len - Z.min b len))) as Happ.
  replace (Z.to_nat (Z.min a len) + Z.to_nat (Z.min b len - Z.min a len))
    with (Z.to_nat (Z.min b len)) in Happ by lia.
  rewrite Happ. f_equal. lia.
Qed.

Lemma tiled_slices (text : string) (lvs : list Leaf) first_leaf last_leaf :
  tiled lvs →
  head lvs = Some first_leaf → last lvs = Some last_leaf →
  concat_texts ((λ l, slice text (leaf_start l) (leaf_end l)) <$> lvs) =
    slice text (leaf_start first_leaf) (leaf_end last_leaf) ∧
  (0 ≤ leaf_start first_leaf ≤ leaf_end last_leaf)%Z.
Proof.
  revert first_leaf. induction lvs as [|l lvs IH]; intros first_leaf; [done|].
  intros (Hl & Hnext & Hrest) [= <-] Hlast.
  destruct lvs as [|l' lvs].
  - injection Hlast as <-. simpl. split; [apply append_empty_r|done].
  - destruct (IH l' Hrest eq_refl Hlast) as [Hconcat Hle].
    change (concat_texts ((λ l, slice text (leaf_start l) (leaf_end l)) <$>
                            l :: l' :: lvs))
      with (String.append (slice text (leaf_start l) (leaf_end l))
              (concat_texts ((λ l, slice text (leaf_start l) (leaf_end l)) <$>
                               l' :: lvs))).
    rewrite Hconcat, Hnext. split; [|lia].
    apply slice_app; lia.
Qed.

Lemma renderLeaf_text_fmap (p : Props) a b ii (lvs : list Leaf) :
  le_text <$> imap (renderLeaf p a b ii) lvs =
  (λ l, slice (getText (block p)) (leaf_start l) (leaf_end l)) <$> lvs.
Proof.
  apply list_eq. intros jj.
  rewrite !list_lookup_fmap, list_lookup_imap. by destruct (lvs !! jj).
Qed.

(** X18.  When the leaves of a decorated leaf set tile a range of the text (each
    starts where the one before ends, none starts before zero or ends before
    it starts), the decorated text is the concatenation of the texts of the
    leaf elements inside the decorator. *)
Theorem renderChildren_decoratedText_concat (p : Props) cs ii d leafSet :
  _renderChildren p = Some cs → cs !! ii = Some (Decorated d) →
  leafSets (tree p) !! ii = Some leafSet →
  tiled (leaves leafSet) →
  de_decoratedText d = concat_texts (le_text <$> de_children d).
Proof.
  intros Hcs Hc Hls Htiled.
  destruct (renderChildren_lookup p cs ii _ Hcs Hc) as (leafSet' & Hls' & Hr).
  rewrite Hls in Hls'. injection Hls' as <-.
  pose proof (renderLeafSet_child_leaves _ _ _ _ _ Hr) as Hleaves.
  simpl in Hleaves. rewrite Hleaves, renderLeaf_text_fmap.
  destruct (renderLeafSet_decorated _ _ _ _ _ Hr)
    as (k & dec & fl & ll & _ & _ & _ & Hfl & Hll & ->).
  symmetry. by apply tiled_slices.
Qed.

(** *** render *)

Context {ClassName : Type}.
Variable cx : list (string * bool) -> ClassName.

(** X19.  [render] throws exactly when [_renderChildren] does.  When it returns,
    the element has the [offsetKey] prop as its offset key, the children of
    [_renderChildren], and class flags in which the block class is set, the
    ltr class is set exactly for direction [LTR], the rtl class exactly for
    [RTL], and the two never together. *)
Theorem render_element (p : Props) :
  (render cx p = None ↔ _renderChildren p = None) ∧
  (∀ el, render cx p = Some el →
     div_offsetKey el = offsetKey p ∧
     _renderChildren p = Some (div_children el) ∧
     ∃ ltr rtl,
       div_className el =
         cx [ ("public/DraftStyleDefault/block", true);
              ("public/DraftStyleDefault/ltr", ltr);
              ("public/DraftStyleDefault/rtl", rtl) ] ∧
       (ltr = true ↔ direction p = "LTR") ∧
       (rtl = true ↔ direction p = "RTL") ∧
       ltr && rtl = false).
Proof.
  unfold render. destruct (_renderChildren p) as [cs|]; split; try done.
  intros el [= <-]. simpl. split; [done|]. split; [done|].
  eexists _, _. split; [reflexivity|].
  rewrite !bool_decide_eq_true. split; [done|]. split; [done|].
  destruct (bool_decide_reflect (direction p = "LTR")) as [->|]; [|done].
  by rewrite bool_decide_eq_false_2.
Qed.

End Facts.

(** The example offset keys tell the indices apart. *)
Lemma unary_sep_inj (c : Ascii.ascii) i i' (x x' : string) :
  c ≠ Ascii.ascii_of_nat 97 →
  String.append (Demo.unary i) (String c x) =
    String.append (Demo.unary i') (String c x') →
  i = i' ∧ x = x'.
Proof.
  intros Hc. revert i'. induction i as [|i IH]; intros [|i']; simpl.
  - by intros [= ->].
  - intros [= ? _]. done.
  - intros [= ? _]. done.
  - intros [= Heq]. destruct (IH i' Heq) as [-> ->]. done.
Qed.

Lemma encode_inj k i j i' j' :
  Demo.encode k i j = Demo.encode k i' j' → i = i' ∧ j = j'.
Proof.
  unfold Demo.encode. intros Heq.
  apply unary_sep_inj in Heq as [-> Heq]; [|done].
  apply unary_sep_inj in Heq as [-> _]; done.
Qed.

Abbreviation pageSel := (Demo.mkSelection "a" "b" true).
Abbreviation pageCall := (@Scroll_setTop Demo.page 9 10%Z).
Abbreviation pageProps0 := (Demo.pageProps 0 0 pageSel (Some Demo.pageDecorator)).

Lemma componentDidMount_visible_block_witness :
  @componentDidMount Demo.page (Demo.pageProps 1 0 pageSel None) 1 = None.
Proof.
  apply (@componentDidMount_visible_block Demo.page); vm_compute; discriminate.
Defined.

Lemma componentDidMount_big_block_top_visible_witness :
  @componentDidMount Demo.page (Demo.pageProps 1 0 pageSel None) 2 = None.
Proof.
  apply (@componentDidMount_big_block_top_visible Demo.page);
    vm_compute; discriminate.
Defined.

Lemma componentDidMount_placement_witness :
  let m := @measure Demo.page (Demo.pageProps 1 0 pageSel None) 3 in
  (blockTop m - (10 - scroll_y (scrollPosition m)) = visTop m + SCROLL_BUFFER)%Z ∧
  (10 - scroll_y (scrollPosition m) < - SCROLL_BUFFER)%Z.
Proof.
  destruct (@componentDidMount_placement Demo.page
              (Demo.pageProps 1 0 pageSel None) 3 pageCall eq_refl)
    as (Htop & _ & Hup & _).
  split.
  - apply Htop. left. vm_compute. reflexivity.
  - apply Hup. vm_compute. reflexivity.
Defined.

Lemma componentDidMount_target_witness :
  pageCall = @Scroll_setTop Demo.page 9 (call_top pageCall).
Proof.
  exact (@componentDidMount_target Demo.page
           (Demo.pageProps 1 0 pageSel None) 3 pageCall eq_refl).
Defined.

Lemma renderChildren_isLast_witness :
  ∃ c el,
    Demo.pageChildren !! 1 = Some c ∧ child_leaves c !! 0 = Some el ∧
    le_isLast el = true.
Proof.
  eexists _, _. split; [reflexivity|]. split; [reflexivity|].
  apply (proj2 (@renderChildren_isLast Demo.page pageProps0 Demo.pageChildren
                  1 _ 0 _ eq_refl eq_refl eq_refl)).
  split; reflexivity.
Defined.

Lemma renderChildren_keys_distinct_witness :
  ∃ c el el',
    Demo.pageChildren !! 0 = Some c ∧
    child_leaves c !! 0 = Some el ∧ child_leaves c !! 1 = Some el' ∧
    le_key el ≠ le_key el'.
Proof.
  eexists _, _, _. split; [reflexivity|]. split; [reflexivity|].
  split; [reflexivity|]. intros Heq.
  destruct (@renderChildren_keys_distinct Demo.page pageProps0 Demo.pageChildren
              0 _ 0 _ 0 _ 1 _
              (λ i j i' j', encode_inj _ i j i' j')
              eq_refl eq_refl eq_refl eq_refl eq_refl Heq) as [_ Hjj].
  discriminate Hjj.
Defined.

Lemma renderChildren_leaf_selection_witness :
  ∃ c el,
    Demo.pageChildren !! 0 = Some c ∧ child_leaves c !! 1 = Some el ∧
    le_selection el = Some pageSel.
Proof.
  eexists _, _. split; [reflexivity|]. split; [reflexivity|].
  apply (proj1 (@renderChildren_leaf_selection Demo.page pageProps0
                  Demo.pageChildren 0 _ 1 _ eq_refl eq_refl eq_refl)).
  left. reflexivity.
Defined.

Lemma renderChildren_decorator_offsetKey_witness :
  ∃ d el,
    Demo.pageChildren !! 0 = Some (Decorated d) ∧
    head (de_children d) = Some el ∧
    de_offsetKey d = le_offsetKey el ∧ de_key d = le_key el.
Proof.
  eexists _. 
  destruct (@renderChildren_decorator_offsetKey Demo.page pageProps0
              Demo.pageChildren 0 _ eq_refl eq_refl) as (el & Hel).
  exists el. split; [reflexivity|]. exact Hel.
Defined.

Lemma renderChildren_throws_witness :
  @_renderChildren Demo.page
    (Demo.pageProps 0 1 pageSel (Some Demo.pageDecorator)) = None.
Proof.
  apply (proj2 (@renderChildren_throws Demo.page _)).
  apply Exists_cons_hd. split; [reflexivity|].
  by exists "link", Demo.pageDecorator, "Link".
Defined.

Lemma renderChildren_no_decorator_witness :
  ∃ cs,
    @_renderChildren Demo.page (Demo.pageProps 0 1 pageSel None) = Some cs ∧
    length cs = 1 ∧
    Forall (λ c, c = BareLeaves (child_leaves c)) cs.
Proof.
  exact (@renderChildren_no_decorator Demo.page
           (Demo.pageProps 0 1 pageSel None) eq_refl).
Defined.

Lemma renderChildren_decoratedText_concat_witness :
  ∃ d,
    Demo.pageChildren !! 0 = Some (Decorated d) ∧
    de_decoratedText d = concat_texts (le_text <$> de_children d).
Proof.
  eexists. split; [reflexivity|].
  eapply (@renderChildren_decoratedText_concat Demo.page pageProps0
            Demo.pageChildren 0 _ _ eq_refl eq_refl eq_refl).
  simpl. lia.
Defined.

End DraftEditorBlockMore.
